(** * Chess3 multiplayer relay server: session lifecycle and role binding

    A shallow embedding of [multiplayer-server.js].  The server keeps one
    [Map] from game ids to game objects ([games]) and grafts a [_chessRole]
    property onto every socket that created or joined a game.  Both are
    modelled as finite maps; every handler is a function from the server
    state to the next state and the list of frames that left through
    [safeSend]. *)

From Stdlib Require Import ZArith QArith Qround.
From stdpp Require Import gmap strings list fin_maps.

Close Scope Q_scope.
Open Scope string_scope.

(** ** Values produced by [JSON.parse] *)

#[warnings="-register-all"]
Inductive json :=
| JNull
| JBool (b : bool)
| JNum (q : Q)
| JStr (s : string)
| JArr (items : list json)
| JObj (fields : list (string * json)).

(** A repeated key in a JSON text keeps its last value. *)
Fixpoint assoc_last (k : string) (fs : list (string * json)) : option json :=
  match fs with
  | [] => None
  | (k', v) :: rest =>
      match assoc_last k rest with
      | Some v' => Some v'
      | None => if String.eqb k k' then Some v else None
      end
  end.

(** [v.k] for the property names this program reads ([type], [gameId],
    [from], [to], [promotion]); [None] is [undefined].  Reading a property
    of [null] raises a TypeError: the one place where the program can do
    so is modelled in [onMessage]. *)
Definition get_field (v : json) (k : string) : option json :=
  match v with
  | JObj fs => assoc_last k fs
  | _ => None
  end.

(** JavaScript truthiness of a value or [undefined]. *)
Definition truthy (v : option json) : bool :=
  match v with
  | None => false
  | Some JNull => false
  | Some (JBool b) => b
  | Some (JNum q) => negb (Qnum q =? 0)%Z
  | Some (JStr s) => negb (String.eqb s EmptyString)
  | Some (JArr _) => true
  | Some (JObj _) => true
  end.

(** ** Sockets, colours, the rules engine *)

(** A socket is known by its identity only. *)
Definition conn := nat.

Inductive color := W | B.

#[global] Instance color_eq_dec : EqDecision color.
Proof. solve_decision. Defined.

(** The argument object of [chess.move]. *)
Record move_request := MoveRequest {
  from : option json;
  to : option json;
  promotion : option json
}.

(** What a call of [chess.move] can do: return a move object and leave the
    instance in its next position, return a falsy value, or raise. *)
Inductive move_result (position lastmove : Type) :=
| Moved (next : position) (m : lastmove)
| NoMove
| MoveThrew.

Arguments Moved {position lastmove} next m.
Arguments NoMove {position lastmove}.
Arguments MoveThrew {position lastmove}.

(** The [chess.js] interface the server calls.  The engine is not part of
    this program: it is taken as a pure function of the position, a failed
    [move] leaving the position as it was. *)
Class RulesEngine := {
  chess : Type;
  lastmove : Type;
  new_Chess : chess;
  fen : chess -> string;
  turn : chess -> color;
  move : chess -> move_request -> move_result chess lastmove;
  isGameOver : chess -> bool;
  isCheckmate : chess -> bool;
  isDraw : chess -> bool
}.

(** ** [generateGameId] *)

Definition chars : string := "ABCDEFGHJKLMNPQRSTUVWXYZ23456789".

(** [chars[i]] spliced into a string: an index outside the string reads
    [undefined], which [+=] renders as text. *)
Definition char_at (s : string) (i : Z) : string :=
  if (i <? 0)%Z then "undefined"
  else match String.get (Z.to_nat i) s with
       | Some c => String c EmptyString
       | None => "undefined"
       end.

(** [Math.floor(Math.random() * chars.length)]; the draw is a dyadic
    rational and the product with 32 is exact. *)
Definition pick (r : Q) : Z :=
  Qfloor (r * inject_Z (Z.of_nat (String.length chars)))%Q.

(** The loop [for (i = k; i < k + n; i++) id += chars[...]], where
    [random i] is the value of the [i]-th call of [Math.random]. *)
Fixpoint generate_loop (random : nat -> Q) (i n : nat) (id : string) : string :=
  match n with
  | O => id
  | S n' => generate_loop random (S i) n' (id +:+ char_at chars (pick (random i)))
  end.

Definition generateGameId (random : nat -> Q) : string :=
  generate_loop random 0 6 EmptyString.

(** ** Server state *)

Record seats := Seats { w : option conn; b : option conn }.

Definition slot (c : color) (p : seats) : option conn :=
  match c with W => w p | B => b p end.

Definition set_slot (c : color) (v : option conn) (p : seats) : seats :=
  match c with
  | W => {| w := v; b := b p |}
  | B => {| w := w p; b := v |}
  end.

Definition opposite (c : color) : color :=
  match c with W => B | B => W end.

Record role := Role { gameId : string; role_color : color }.

Section Server.

Context `{E : RulesEngine}.

Record game := Game {
  game_chess : chess;
  players : seats;
  createdAt : Z
}.

(** [games] is the module-level [Map]; [chessRole ws] is [ws._chessRole],
    absent while the property is [undefined]. *)
Record server := Server {
  games : gmap string game;
  chessRole : gmap conn role
}.

Definition initial : server := {| games := ∅; chessRole := ∅ |}.

(** ** Outbound frames *)

Inductive payload :=
| Connected (message : string)
| GameCreated (id : string) (c : color) (position : string)
| GameJoined (id : string) (c : color) (position : string)
| OpponentJoined (id : string) (opponentColor : color)
| MoveMade (id : string) (position : string) (last : lastmove) (next : color)
    (over mate draw : bool)
| Error (message : string).

Definition frame : Type := conn * payload.

(** [open ws] stands for [ws.readyState === ws.OPEN] at the time of the
    call; the first argument may be [null]. *)
Definition safeSend (open : conn -> bool) (ws : option conn) (p : payload)
  : list frame :=
  match ws with
  | Some c => if open c then [(c, p)] else []
  | None => []
  end.

(** ** Handlers *)

Definition createGame (open : conn -> bool) (random : nat -> Q) (now : Z)
    (s : server) (ws : conn) : server * list frame :=
  let id := generateGameId random in
  let c := new_Chess in
  let g := {| game_chess := c;
              players := {| w := Some ws; b := None |};
              createdAt := now |} in
  ({| games := <[id := g]> (games s);
      chessRole := <[ws := {| gameId := id; role_color := W |}]> (chessRole s) |},
   safeSend open (Some ws) (GameCreated id W (fen c))).

(** The part of [joinGame] after a seat was chosen. *)
Definition seat_joiner (open : conn -> bool) (s : server) (ws : conn)
    (id : string) (g : game) (c : color) : server * list frame :=
  let g' := {| game_chess := game_chess g;
               players := set_slot c (Some ws) (players g);
               createdAt := createdAt g |} in
  ({| games := <[id := g']> (games s);
      chessRole := <[ws := {| gameId := id; role_color := c |}]> (chessRole s) |},
   (safeSend open (Some ws) (GameJoined id c (fen (game_chess g')))
    ++ match slot (opposite c) (players g') with
       | Some opp => safeSend open (Some opp) (OpponentJoined id c)
       | None => []
       end)%list).

(** [games.get(key)]: the keys of [games] are strings, so any other value
    finds nothing. *)
Definition games_get (m : gmap string game) (key : option json) : option (string * game) :=
  match key with
  | Some (JStr id) => (fun g => (id, g)) <$> m !! id
  | _ => None
  end.

Definition joinGame (open : conn -> bool) (s : server) (ws : conn)
    (key : option json) : server * list frame :=
  match games_get (games s) key with
  | None => (s, safeSend open (Some ws) (Error "Game not found"))
  | Some (id, g) =>
      match b (players g) with
      | None => seat_joiner open s ws id g B
      | Some _ =>
          match w (players g) with
          | None => seat_joiner open s ws id g W
          | Some _ =>
              (s, safeSend open (Some ws) (Error "Game already has two players"))
          end
      end
  end.

(** [promotion || 'q'] *)
Definition promotion_or_q (p : option json) : option json :=
  if truthy p then p else Some (JStr "q").

(** The object literal [{ from, to, promotion: promotion || 'q' }]. *)
Definition request_of (msg : json) : move_request :=
  {| from := get_field msg "from";
     to := get_field msg "to";
     promotion := promotion_or_q (get_field msg "promotion") |}.

Definition handleMove (open : conn -> bool) (s : server) (ws : conn)
    (msg : json) : server * list frame :=
  match games_get (games s) (get_field msg "gameId") with
  | None => (s, safeSend open (Some ws) (Error "Game not found"))
  | Some (id, g) =>
      match chessRole s !! ws with
      | None => (s, safeSend open (Some ws) (Error "You are not part of this game"))
      | Some r =>
          if negb (String.eqb (gameId r) id)
          then (s, safeSend open (Some ws) (Error "You are not part of this game"))
          else if negb (bool_decide (role_color r = turn (game_chess g)))
          then (s, safeSend open (Some ws) (Error "Not your turn"))
          else
            match move (game_chess g) (request_of msg) with
            | MoveThrew => (s, safeSend open (Some ws) (Error "Move error"))
            | NoMove => (s, safeSend open (Some ws) (Error "Illegal move"))
            | Moved c' m =>
                let p := MoveMade id (fen c') m (turn c')
                           (isGameOver c') (isCheckmate c') (isDraw c') in
                ({| games := <[id := {| game_chess := c';
                                        players := players g;
                                        createdAt := createdAt g |}]> (games s);
                    chessRole := chessRole s |},
                 (safeSend open (w (players g)) p ++ safeSend open (b (players g)) p)%list)
            end
      end
  end.

Definition vacant (p : seats) : bool :=
  match w p, b p with
  | None, None => true
  | _, _ => false
  end.

Definition cleanupConnection (s : server) (ws : conn) : server :=
  match chessRole s !! ws with
  | None => s
  | Some r =>
      match games s !! gameId r with
      | None => s
      | Some g =>
          let p := if bool_decide (slot (role_color r) (players g) = Some ws)
                   then set_slot (role_color r) None (players g)
                   else players g in
          {| games := if vacant p then delete (gameId r) (games s)
                      else <[gameId r := {| game_chess := game_chess g;
                                            players := p;
                                            createdAt := createdAt g |}]> (games s);
             chessRole := chessRole s |}
      end
  end.

(** ** The socket listeners *)

(** A listener either runs to its end or lets an exception escape. *)
Inductive outcome :=
| Done (s : server) (out : list frame)
| Uncaught.

Definition returned (r : server * list frame) : outcome := Done (fst r) (snd r).

(** The [switch (type)] of the ['message'] listener. *)
Definition dispatch (open : conn -> bool) (random : nat -> Q) (now : Z)
    (s : server) (ws : conn) (msg : json) : outcome :=
  match get_field msg "type" with
  | Some (JStr t) =>
      if String.eqb t "create_game" then returned (createGame open random now s ws)
      else if String.eqb t "join_game" then
        if negb (truthy (get_field msg "gameId"))
        then Done s (safeSend open (Some ws) (Error "Missing gameId"))
        else returned (joinGame open s ws (get_field msg "gameId"))
      else if String.eqb t "make_move" then returned (handleMove open s ws msg)
      else Done s (safeSend open (Some ws) (Error "Unknown message type"))
  | _ => Done s (safeSend open (Some ws) (Error "Unknown message type"))
  end.

(** The ['message'] listener.  [data] is [JSON.parse(data.toString())],
    [None] when the parser raised.  The destructuring
    [const { type } = msg] raises on [null], outside the [try]. *)
Definition onMessage (open : conn -> bool) (random : nat -> Q) (now : Z)
    (s : server) (ws : conn) (data : option json) : outcome :=
  match data with
  | None => Done s (safeSend open (Some ws) (Error "Invalid JSON"))
  | Some JNull => Uncaught
  | Some msg => dispatch open random now s ws msg
  end.

Definition onClose (s : server) (ws : conn) : outcome :=
  Done (cleanupConnection s ws) [].

Definition onConnection (open : conn -> bool) (s : server) (ws : conn) : outcome :=
  Done s (safeSend open (Some ws)
            (Connected "Connected to Chess3 multiplayer server")).

(** ** Runs of the server *)

(** One event is handled to completion before the next.  A ['message']
    event carries the values the handler draws from [Math.random] and
    [Date.now]. *)
Inductive event :=
| Connect (ws : conn)
| Message (ws : conn) (data : option json) (random : nat -> Q) (now : Z)
| Close (ws : conn).

Definition handle (open : conn -> bool) (s : server) (e : event) : outcome :=
  match e with
  | Connect ws => onConnection open s ws
  | Message ws data random now => onMessage open random now s ws data
  | Close ws => onClose s ws
  end.

(** The states the server passes through; the readiness of the sockets is
    left to the transport and may differ at every event. *)
Inductive reachable : server -> Prop :=
| reachable_initial : reachable initial
| reachable_step s e open s' out :
    reachable s -> handle open s e = Done s' out -> reachable s'.

(** Running a list of events from a state on an orderly transport: a
    socket is writable from its ['connection'] event to its ['close']
    event.  [None] once an exception escaped. *)
Fixpoint run (live : gset conn) (s : server) (es : list event)
  : option (server * list frame) :=
  match es with
  | [] => Some (s, [])
  | e :: es' =>
      let live' := match e with
                   | Connect ws => {[ws]} ∪ live
                   | Message _ _ _ _ => live
                   | Close ws => live ∖ {[ws]}
                   end in
      match handle (fun c => bool_decide (c ∈ live')) s e with
      | Uncaught => None
      | Done s' out =>
          match run live' s' es' with
          | Some (s'', out') => Some (s'', (out ++ out')%list)
          | None => None
          end
      end
  end.

(** The registry invariant: no stored session has two empty seats. *)
Definition seated (s : server) : Prop :=
  forall id g, games s !! id = Some g -> vacant (players g) = false.

End Server.

Arguments Done {E} s out.
Arguments Uncaught {E}.

(** ** A small engine to run the server on

    Positions are ply counters: White is to move on even counts.  A move
    between two distinct named squares is played, a move from a square to
    itself is refused, and a request without two named squares raises. *)
Definition ply_engine : RulesEngine := {|
  chess := nat;
  lastmove := string * string;
  new_Chess := 0;
  fen := fun c => if Nat.even c then "w" else "b";
  turn := fun c => if Nat.even c then W else B;
  move := fun c r =>
    match from r, to r with
    | Some (JStr f), Some (JStr t) =>
        if String.eqb f t then NoMove else Moved (S c) (f, t)
    | _, _ => MoveThrew
    end;
  isGameOver := fun _ => false;
  isCheckmate := fun _ => false;
  isDraw := fun _ => false
|}.

Definition always_open : conn -> bool := fun _ => true.

(** Draws that spell [AAAAAA] and [BBBBBB]. *)
Definition draws_A : nat -> Q := fun _ => 0%Q.
Definition draws_B : nat -> Q := fun _ => (1 # 32)%Q.

Definition create_msg : json := JObj [("type", JStr "create_game")].
Definition join_msg (id : string) : json :=
  JObj [("type", JStr "join_game"); ("gameId", JStr id)].
Definition move_msg (id f t : string) : json :=
  JObj [("type", JStr "make_move"); ("gameId", JStr id);
        ("from", JStr f); ("to", JStr t)].

(** States of a small run: socket 1 creates [AAAAAA]; socket 2 joins it;
    socket 1 then creates [BBBBBB] on the same connection. *)
Definition lobby : server (E:=ply_engine) :=
  (createGame always_open draws_A 10 initial 1).1.

Definition paired : server (E:=ply_engine) :=
  (joinGame always_open lobby 2 (Some (JStr "AAAAAA"))).1.

Definition rebound : server (E:=ply_engine) :=
  (createGame always_open draws_B 20 paired 1).1.

(** Sockets 1 and 2 pair up in [AAAAAA], socket 1 creates a second game,
    then both sockets close. *)
Definition both_leave : list event :=
  [Connect 1; Message 1 (Some create_msg) draws_A 10;
   Connect 2; Message 2 (Some (join_msg "AAAAAA")) draws_A 11;
   Message 1 (Some create_msg) draws_B 20;
   Close 1; Close 2].

(** ** The contract of [Math.random]

    Every draw lies in [0, 1). *)
Definition fair (random : nat -> Q) : Prop :=
  forall k, (0 <= random k)%Q /\ (random k < 1)%Q.

(** Socket 2 alone is writable. *)
Definition only_socket_2 : conn -> bool := fun ws => Nat.eqb ws 2.

(** The symbols of [chars], and the look-alikes it leaves out. *)
Definition alphabet : list Ascii.ascii := String.list_ascii_of_string chars.

Definition lookalikes : list Ascii.ascii := String.list_ascii_of_string "0O1I".

(** The index draws of one call of [generateGameId]. *)
Definition picks (random : nat -> Q) : list Z :=
  map (fun k => pick (random k)) (seq 0 6).

(** What [cleanupConnection] makes of the game its socket is bound to:
    the seat is cleared when it holds the socket, and the game goes when
    both seats are then empty. *)
Definition leave `{E : RulesEngine} (ws : conn) (c : color) (g : game)
  : option game :=
  let q := if bool_decide (slot c (players g) = Some ws)
           then set_slot c None (players g)
           else players g in
  if vacant q then None
  else Some {| game_chess := game_chess g; players := q; createdAt := createdAt g |}.

(** The states of runs whose draws honour the contract of [Math.random]. *)
Inductive reachable_fair `{E : RulesEngine} : server -> Prop :=
| reachable_fair_initial : reachable_fair initial
| reachable_fair_step s e open s' out :
    reachable_fair s ->
    (forall ws data random now, e = Message ws data random now -> fair random) ->
    handle open s e = Done s' out ->
    reachable_fair s'.

(** * Properties *)

Example generateGameId_A : generateGameId draws_A = "AAAAAA".
Proof. reflexivity. Qed.

Example generateGameId_B : generateGameId draws_B = "BBBBBB".
Proof. reflexivity. Qed.

Example generateGameId_spread :
  generateGameId (fun i => (Z.of_nat i # 8)%Q) = "AEJNSW".
Proof. reflexivity. Qed.

Example generateGameId_last :
  generateGameId (fun _ => (9007199254740991 # 9007199254740992)%Q) = "999999".
Proof. reflexivity. Qed.

(** ** The shape of a generated id *)

(** A draw of [Math.random] lies in [0, 1), so every index is inside [chars]. *)
Lemma pick_range (r : Q) : (0 <= r)%Q -> (r < 1)%Q -> (0 <= pick r < 32)%Z.
Proof.
  intros Hlo Hhi. unfold pick.
  change (inject_Z (Z.of_nat (String.length chars))) with (inject_Z 32).
  split.
  - change 0%Z with (Qfloor 0). apply Qfloor_resp_le.
    apply Qmult_le_0_compat; [done|]. by apply (Qle_bool_iff 0 (inject_Z 32)).
  - apply Z.lt_nge. intros Hge.
    assert (inject_Z 32 <= r * inject_Z 32)%Q as Hle.
    { eapply Qle_trans; [|apply Qfloor_le]. by rewrite <- Zle_Qle. }
    assert (r * inject_Z 32 < 1 * inject_Z 32)%Q as Hlt.
    { apply Qmult_lt_compat_r; [reflexivity|done]. }
    rewrite Qmult_1_l in Hlt. by apply Qle_not_lt in Hle.
Qed.

Lemma char_at_symbol (i : Z) :
  (0 <= i < 32)%Z -> exists a, char_at chars i = String a EmptyString.
Proof.
  intros [Hlo Hhi]. unfold char_at.
  rewrite (proj2 (Z.ltb_ge i 0) Hlo).
  assert (Z.to_nat i < 32)%nat as Hn by lia.
  destruct (String.get (Z.to_nat i) chars) as [a|] eqn:Hget; [by eexists|].
  exfalso. revert Hget. generalize (Z.to_nat i) Hn. clear.
  intros n Hn. do 32 (destruct n as [|n]; [done|]). lia.
Qed.

Lemma length_append (x y : string) :
  String.length (x +:+ y) = String.length x + String.length y.
Proof. induction x as [|a x IH]; simpl; [done|]. by rewrite IH. Qed.

Lemma generate_loop_length random n : forall i id,
  (forall k, (0 <= random k)%Q /\ (random k < 1)%Q) ->
  String.length (generate_loop random i n id) = String.length id + n.
Proof.
  induction n as [|n IH]; intros i id Hr; simpl; [lia|].
  rewrite IH; [|done]. rewrite length_append.
  destruct (Hr i) as [Hlo Hhi].
  destruct (char_at_symbol (pick (random i)) (pick_range _ Hlo Hhi)) as [a ->].
  simpl. lia.
Qed.

Lemma generateGameId_length random :
  (forall k, (0 <= random k)%Q /\ (random k < 1)%Q) ->
  String.length (generateGameId random) = 6.
Proof. intros Hr. unfold generateGameId. by rewrite generate_loop_length. Qed.

Section Properties.

Context `{E : RulesEngine}.

Implicit Types (s : server) (ws : conn) (g : game) (id : string)
  (open : conn -> bool) (c : color) (p : payload) (f : frame).

(** ** Bookkeeping lemmas *)

Lemma server_eta s : {| games := games s; chessRole := chessRole s |} = s.
Proof. by destruct s. Qed.

Lemma game_eta g :
  {| game_chess := game_chess g; players := players g; createdAt := createdAt g |} = g.
Proof. by destruct g. Qed.

Lemma safeSend_open open ws p :
  open ws = true -> safeSend open (Some ws) p = [(ws, p)].
Proof. intros Hopen. unfold safeSend. by rewrite Hopen. Qed.

Lemma safeSend_elem open (o : option conn) p f :
  f ∈ safeSend open o p <-> o = Some f.1 /\ f.2 = p /\ open f.1 = true.
Proof.
  destruct f as [x q]. unfold safeSend. simpl. split.
  - destruct o as [y|]; [|by intros ?%elem_of_nil].
    destruct (open y) eqn:Hy; [|by intros ?%elem_of_nil].
    intros Hin%list_elem_of_singleton. by simplify_eq.
  - intros (-> & -> & ->). apply list_elem_of_singleton. done.
Qed.

Lemma slot_set_same c v (q : seats) : slot c (set_slot c v q) = v.
Proof. by destruct c. Qed.

Lemma slot_set_opposite c v (q : seats) :
  slot (opposite c) (set_slot c v q) = slot (opposite c) q.
Proof. by destruct c. Qed.

Lemma games_get_Some (m : gmap string game) key id g :
  games_get m key = Some (id, g) <-> key = Some (JStr id) /\ m !! id = Some g.
Proof.
  unfold games_get. split.
  - destruct key as [[| | |k| |]|]; try done.
    destruct (m !! k) eqn:Hk; simpl; [|done]. intros ?. by simplify_eq.
  - intros [-> ->]. done.
Qed.

Lemma games_get_str (m : gmap string game) id :
  games_get m (Some (JStr id)) = (fun g => (id, g)) <$> m !! id.
Proof. done. Qed.

(** The three ways out of [joinGame]. *)
Lemma joinGame_cases open s ws key :
  (games_get (games s) key = None /\
   joinGame open s ws key = (s, safeSend open (Some ws) (Error "Game not found")))
  \/ exists id g, key = Some (JStr id) /\ games s !! id = Some g /\
       ((b (players g) = None /\
         joinGame open s ws key = seat_joiner open s ws id g B)
        \/ (is_Some (b (players g)) /\ w (players g) = None /\
            joinGame open s ws key = seat_joiner open s ws id g W)
        \/ (is_Some (b (players g)) /\ is_Some (w (players g)) /\
            joinGame open s ws key =
              (s, safeSend open (Some ws) (Error "Game already has two players")))).
Proof.
  unfold joinGame. destruct (games_get (games s) key) as [[id g]|] eqn:Hget.
  - right. apply games_get_Some in Hget as [-> Hg]. exists id, g.
    do 2 (split; [done|]).
    destruct (b (players g)) as [y|] eqn:Hb; [|by left].
    right. destruct (w (players g)) as [x|] eqn:Hw; [right|left]; eauto.
  - by left.
Qed.

(** [handleMove] changes nothing but the position of the addressed game. *)
Lemma handleMove_chessRole open s ws msg :
  chessRole (handleMove open s ws msg).1 = chessRole s.
Proof.
  unfold handleMove.
  repeat (case_match; simpl; try done).
Qed.

Lemma handleMove_games open s ws msg id :
  games (handleMove open s ws msg).1 !! id = games s !! id
  \/ exists g (pos : chess), games s !! id = Some g /\
       games (handleMove open s ws msg).1 !! id =
         Some {| game_chess := pos; players := players g; createdAt := createdAt g |}.
Proof.
  unfold handleMove.
  destruct (games_get (games s) (get_field msg "gameId")) as [[id' g]|] eqn:Hget;
    [|by left].
  apply games_get_Some in Hget as [_ Hg].
  repeat (case_match; simpl; try by left).
  destruct (decide (id' = id)) as [->|Hne].
  - right. eexists _, _. split; [done|]. by rewrite lookup_insert_eq.
  - left. by rewrite lookup_insert_ne.
Qed.

Lemma run_reachable es : forall live s s' out,
  reachable s -> run live s es = Some (s', out) -> reachable s'.
Proof.
  induction es as [|e es IH]; intros live s s' out Hs Hrun; simpl in Hrun.
  - by simplify_eq.
  - destruct (handle _ s e) as [s1 out1|] eqn:Hstep; [|done].
    destruct (run _ s1 es) as [[s2 out2]|] eqn:Hrest; [|done].
    simplify_eq. eapply IH; [|done]. by eapply reachable_step.
Qed.

(** ** Game creation *)

(** C1 (as amended): [createGame] stores, under the generated id, a session
    in the engine's initial position with the creator in the white seat and
    the black seat empty, binds the creator to (id, white) and answers the
    creator alone; every other id and every other binding is untouched, so
    when the generated id was not in the registry no stored session is
    changed. *)
Theorem createGame_inserts open random now s ws :
  let id := generateGameId random in
  let r := createGame open random now s ws in
  games r.1 !! id =
    Some {| game_chess := new_Chess;
            players := {| w := Some ws; b := None |};
            createdAt := now |}
  /\ chessRole r.1 !! ws = Some {| gameId := id; role_color := W |}
  /\ (forall id', id' <> id -> games r.1 !! id' = games s !! id')
  /\ (forall ws', ws' <> ws -> chessRole r.1 !! ws' = chessRole s !! ws')
  /\ r.2 = safeSend open (Some ws) (GameCreated id W (fen new_Chess))
  /\ (games s !! id = None ->
      forall id' g, games s !! id' = Some g -> games r.1 !! id' = Some g).
Proof.
  intros id r. subst r. unfold createGame. fold id. simpl.
  repeat split.
  - by rewrite lookup_insert_eq.
  - by rewrite lookup_insert_eq.
  - intros id' Hne. by rewrite lookup_insert_ne.
  - intros ws' Hne. by rewrite lookup_insert_ne.
  - intros Hfresh id' g Hg. rewrite lookup_insert_ne; [done|].
    intros <-. congruence.
Qed.

(** ** Role bindings *)

(** C2 (as amended): a socket's role binding changes only while the server
    handles a [create_game] or [join_game] message of that same socket, and
    the new binding then names a stored session whose seat of the bound
    colour holds the socket.  [createGame] always binds the socket to the
    id it drew, as white, and a [joinGame] that seats the socket binds it
    to the joined game under the seat it got: an earlier binding is
    replaced. *)
Theorem role_binding_step open s ws :
  (forall e s' out,
     handle open s e = Done s' out ->
     chessRole s' !! ws = chessRole s !! ws
     \/ exists msg random now id c g,
          e = Message ws (Some msg) random now
          /\ (get_field msg "type" = Some (JStr "create_game")
              \/ get_field msg "type" = Some (JStr "join_game"))
          /\ chessRole s' !! ws = Some {| gameId := id; role_color := c |}
          /\ games s' !! id = Some g
          /\ slot c (players g) = Some ws)
  /\ (forall random now,
        chessRole (createGame open random now s ws).1 !! ws
        = Some {| gameId := generateGameId random; role_color := W |})
  /\ (forall key,
        joinGame open s ws key
        = (s, safeSend open (Some ws) (Error "Game not found"))
        \/ joinGame open s ws key
           = (s, safeSend open (Some ws) (Error "Game already has two players"))
        \/ exists id c, key = Some (JStr id)
             /\ is_Some (games s !! id)
             /\ chessRole (joinGame open s ws key).1 !! ws
                = Some {| gameId := id; role_color := c |}).
Proof.
  split; [|split].
  2:{ intros random now. unfold createGame. simpl. by rewrite lookup_insert_eq. }
  2:{ intros key.
      destruct (joinGame_cases open s ws key)
        as [[_ ->]|(id & g & -> & Hg & [[_ ->]|[(_ & _ & ->)|(_ & _ & ->)]])];
        [by left| | |by right; left].
      all: right; right; eexists id, _; split; [done|]; split; [by eexists|].
      all: unfold seat_joiner; simpl; by rewrite lookup_insert_eq. }
  intros e s' out.
  destruct e as [x|x data random now|x]; simpl.
  - intros [= <- _]. by left.
  - intros Hstep.
    assert (exists msg, data = Some msg /\ dispatch open random now s x msg = Done s' out
            \/ s' = s) as [msg [[-> Hd]| ->]]; [| |by left].
    { unfold onMessage in Hstep. destruct data as [msg|].
      - exists msg. destruct msg; try done; by left.
      - exists JNull. right. by simplify_eq. }
    revert Hd. unfold dispatch.
    destruct (get_field msg "type") as [[| | |t| |]|] eqn:Ht;
      try (intros [= <- _]; by left).
    destruct (String.eqb t "create_game") eqn:Hcreate.
    { apply String.eqb_eq in Hcreate as ->. unfold returned, createGame. simpl.
      intros [= <- _]. simpl.
      destruct (decide (x = ws)) as [->|Hne];
        [|left; by rewrite lookup_insert_ne].
      right. eexists msg, random, now, _, W, _.
      split; [done|]. split; [by left|].
      rewrite !lookup_insert_eq. done. }
    destruct (String.eqb t "join_game") eqn:Hjoin.
    { apply String.eqb_eq in Hjoin as ->.
      destruct (negb _); [intros [= <- _]; by left|].
      unfold returned.
      destruct (joinGame_cases open s x (get_field msg "gameId"))
        as [[_ ->]|(id & g & _ & Hg & [[_ ->]|[(_ & _ & ->)|(_ & _ & ->)]])];
        simpl; intros [= <- _]; simpl; try by left.
      all: destruct (decide (x = ws)) as [->|Hne];
        [|left; by rewrite lookup_insert_ne].
      all: right; eexists msg, random, now, id, _, _.
      all: split; [done|]; split; [by right|].
      all: rewrite !lookup_insert_eq; done. }
    destruct (String.eqb t "make_move");
      [|intros [= <- _]; by left].
    unfold returned. intros [= <- _]. left. by rewrite handleMove_chessRole.
  - unfold onClose. intros [= <- _]. left.
    unfold cleanupConnection. repeat case_match; done.
Qed.

(** ** Disconnection and the life of a session *)

Lemma vacant_set_Some c ws (q : seats) : vacant (set_slot c (Some ws) q) = false.
Proof. destruct c, q as [[?|] [?|]]; done. Qed.

Lemma vacant_slots (q : seats) :
  vacant q = true <-> w q = None /\ b q = None.
Proof. destruct q as [[?|] [?|]]; simpl; split; (done || by intros [? ?]). Qed.

Lemma seated_insert s id g (roles : gmap conn role) :
  seated s -> vacant (players g) = false ->
  seated {| games := <[id := g]> (games s); chessRole := roles |}.
Proof.
  intros Hs Hg id' g'. simpl.
  destruct (decide (id = id')) as [->|Hne].
  - rewrite lookup_insert_eq. by intros [= <-].
  - rewrite lookup_insert_ne; [|done]. apply Hs.
Qed.

Lemma seated_dispatch open random now s ws msg s' out :
  seated s -> dispatch open random now s ws msg = Done s' out -> seated s'.
Proof.
  intros Hs. unfold dispatch.
  destruct (get_field msg "type") as [[| | |t| |]|];
    try (intros [= <- _]; done).
  destruct (String.eqb t "create_game").
  { intros [= <- _]. by apply seated_insert. }
  destruct (String.eqb t "join_game").
  { destruct (negb _); [intros [= <- _]; done|]. unfold returned.
    destruct (joinGame_cases open s ws (get_field msg "gameId"))
      as [[_ ->]|(id & g & _ & Hg & [[_ ->]|[(_ & _ & ->)|(_ & _ & ->)]])];
      simpl; intros [= <- _]; try done.
    all: apply seated_insert; [done|]; simpl.
    all: by destruct (players g) as [[?|] [?|]]. }
  destruct (String.eqb t "make_move"); [|intros [= <- _]; done].
  unfold returned. intros [= <- _] id g Hg.
  destruct (handleMove_games open s ws msg id) as [Heq|(g0 & pos & Hg0 & Heq)];
    rewrite Heq in Hg.
  - by eapply Hs.
  - simplify_eq. simpl. by eapply Hs.
Qed.

Lemma seated_cleanup s ws : seated s -> seated (cleanupConnection s ws).
Proof.
  intros Hs. unfold cleanupConnection.
  destruct (chessRole s !! ws) as [r|]; [|done].
  destruct (games s !! gameId r) as [g|] eqn:Hg; [|done].
  set (q := if bool_decide _ then _ else _).
  destruct (vacant q) eqn:Hq.
  - intros id g'. simpl. intros Hdel.
    apply lookup_delete_Some in Hdel as [_ Hg']. by eapply Hs.
  - by apply seated_insert.
Qed.

Lemma seated_step open s e s' out :
  seated s -> handle open s e = Done s' out -> seated s'.
Proof.
  intros Hs. destruct e as [x|x data random now|x]; simpl.
  - by intros [= <- _].
  - unfold onMessage. destruct data as [msg|]; [|by intros [= <- _]].
    destruct msg; try done; by apply seated_dispatch.
  - intros [= <- _]. by apply seated_cleanup.
Qed.

Lemma reachable_seated s : reachable s -> seated s.
Proof.
  induction 1 as [|s e open s' out _ IH Hstep].
  - intros id g. unfold initial. simpl. by rewrite lookup_empty.
  - by eapply seated_step.
Qed.

(** Messages never remove an id from the registry. *)
Lemma dispatch_keeps open random now s ws msg s' out id :
  dispatch open random now s ws msg = Done s' out ->
  is_Some (games s !! id) -> is_Some (games s' !! id).
Proof.
  intros Hd Hid. revert Hd. unfold dispatch.
  destruct (get_field msg "type") as [[| | |t| |]|];
    try (intros [= <- _]; done).
  destruct (String.eqb t "create_game").
  { intros [= <- _]. simpl. rewrite lookup_insert_is_Some'. by right. }
  destruct (String.eqb t "join_game").
  { destruct (negb _); [intros [= <- _]; done|]. unfold returned.
    destruct (joinGame_cases open s ws (get_field msg "gameId"))
      as [[_ ->]|(id' & g & _ & Hg & [[_ ->]|[(_ & _ & ->)|(_ & _ & ->)]])];
      simpl; intros [= <- _]; try done.
    all: simpl; rewrite lookup_insert_is_Some'; by right. }
  destruct (String.eqb t "make_move"); [|intros [= <- _]; done].
  unfold returned. intros [= <- _].
  destruct (handleMove_games open s ws msg id) as [->|(g0 & pos & _ & ->)]; done.
Qed.

(** What a close event does to the session its socket is bound to. *)
Lemma cleanup_bound s ws id c g :
  chessRole s !! ws = Some {| gameId := id; role_color := c |} ->
  games s !! id = Some g ->
  slot c (players g) = Some ws ->
  cleanupConnection s ws =
    {| games :=
         match slot (opposite c) (players g) with
         | Some _ => <[id := {| game_chess := game_chess g;
                                players := set_slot c None (players g);
                                createdAt := createdAt g |}]> (games s)
         | None => delete id (games s)
         end;
       chessRole := chessRole s |}.
Proof.
  intros Hr Hg Hslot. unfold cleanupConnection. rewrite Hr. simpl. rewrite Hg.
  rewrite bool_decide_eq_true_2; [|done].
  destruct g as [pos [x y] t]. destruct c; simpl in *; subst.
  - destruct y; done.
  - destruct x; done.
Qed.

Lemma cleanup_unbound s ws :
  chessRole s !! ws = None -> cleanupConnection s ws = s.
Proof. intros Hr. unfold cleanupConnection. by rewrite Hr. Qed.

(** A close event that finds its seat no longer held changes nothing. *)
Lemma cleanup_stale s ws r :
  seated s ->
  chessRole s !! ws = Some r ->
  (games s !! gameId r = None
   \/ exists g, games s !! gameId r = Some g
        /\ slot (role_color r) (players g) <> Some ws) ->
  cleanupConnection s ws = s.
Proof.
  intros Hs Hr Hcase. unfold cleanupConnection. rewrite Hr.
  destruct Hcase as [->|(g & Hg & Hslot)]; [done|].
  rewrite Hg. rewrite bool_decide_eq_false_2; [|done].
  rewrite (Hs _ _ Hg). rewrite game_eta. rewrite insert_id; [|done].
  apply server_eta.
Qed.

Lemma cleanup_twice s ws :
  cleanupConnection (cleanupConnection s ws) ws = cleanupConnection s ws.
Proof.
  destruct (chessRole s !! ws) as [r|] eqn:Hr;
    [|by rewrite !(cleanup_unbound s ws Hr)].
  destruct (games s !! gameId r) as [g|] eqn:Hg.
  2:{ assert (cleanupConnection s ws = s) as Hsame
        by (unfold cleanupConnection; by rewrite Hr, Hg).
      by rewrite !Hsame. }
  unfold cleanupConnection at 2 3. rewrite Hr, Hg.
  set (q := if bool_decide _ then _ else _).
  assert (slot (role_color r) q <> Some ws) as Hq.
  { subst q. case_bool_decide as Hd; [|done]. by rewrite slot_set_same. }
  unfold cleanupConnection. simpl. rewrite Hr.
  destruct (vacant q) eqn:Hv.
  - by rewrite lookup_delete_eq.
  - rewrite lookup_insert_eq. simpl.
    rewrite bool_decide_eq_false_2; [|done]. rewrite Hv.
    by rewrite insert_insert_eq.
Qed.

(** Only a close event that empties both seats removes an id. *)
Lemma registry_delete_step open s e s' out id :
  seated s ->
  handle open s e = Done s' out ->
  is_Some (games s !! id) ->
  games s' !! id = None ->
  exists ws g c,
    e = Close ws
    /\ chessRole s !! ws = Some {| gameId := id; role_color := c |}
    /\ games s !! id = Some g
    /\ slot c (players g) = Some ws
    /\ slot (opposite c) (players g) = None.
Proof.
  intros Hs Hstep Hid Hgone.
  destruct e as [x|x data random now|x]; simpl in Hstep.
  - injection Hstep as <- _. rewrite Hgone in Hid. by destruct Hid.
  - assert (is_Some (games s' !! id)) as Hkept.
    { unfold onMessage in Hstep. destruct data as [msg|].
      - destruct msg; try done; by eapply dispatch_keeps.
      - by simplify_eq. }
    rewrite Hgone in Hkept. by destruct Hkept.
  - injection Hstep as <- _. revert Hgone. unfold cleanupConnection.
    destruct (chessRole s !! x) as [[id' c]|] eqn:Hr;
      [|intros Hgone; rewrite Hgone in Hid; by destruct Hid].
    simpl. destruct (games s !! id') as [g|] eqn:Hg;
      [|intros Hgone; rewrite Hgone in Hid; by destruct Hid].
    simpl. case_bool_decide as Hslot.
    + destruct (vacant _) eqn:Hv; simpl.
      * intros Hdel. apply lookup_delete_None in Hdel as [<-|Hnone];
          [|rewrite Hnone in Hid; by destruct Hid].
        exists x, g, c. do 4 (split; [done|]).
        apply vacant_slots in Hv. destruct c; simpl in *; tauto.
      * intros Hins. apply lookup_insert_None in Hins as [Hnone _].
        rewrite Hnone in Hid. by destruct Hid.
    + rewrite (Hs _ _ Hg). simpl. intros Hins.
      apply lookup_insert_None in Hins as [Hnone _].
      rewrite Hnone in Hid. by destruct Hid.
Qed.

Lemma joinGame_absent open s ws id :
  games s !! id = None ->
  joinGame open s ws (Some (JStr id))
  = (s, safeSend open (Some ws) (Error "Game not found")).
Proof. intros Hid. unfold joinGame, games_get. by rewrite Hid. Qed.

(** Both seat holders close while still bound to the session. *)
Lemma cleanup_both s id g x y :
  games s !! id = Some g ->
  players g = {| w := Some x; b := Some y |} ->
  chessRole s !! x = Some {| gameId := id; role_color := W |} ->
  chessRole s !! y = Some {| gameId := id; role_color := B |} ->
  games (cleanupConnection (cleanupConnection s x) y) !! id = None
  /\ games (cleanupConnection (cleanupConnection s y) x) !! id = None.
Proof.
  intros Hg Hp Hx Hy. split.
  - rewrite (cleanup_bound s x id W g Hx Hg); [|by rewrite Hp].
    rewrite Hp. simpl.
    erewrite (cleanup_bound _ y id B); simpl;
      [|done|by rewrite lookup_insert_eq|done].
    simpl. by rewrite lookup_delete_eq.
  - rewrite (cleanup_bound s y id B g Hy Hg); [|by rewrite Hp].
    rewrite Hp. simpl.
    erewrite (cleanup_bound _ x id W); simpl;
      [|done|by rewrite lookup_insert_eq|done].
    simpl. by rewrite lookup_delete_eq.
Qed.

(** X20: in every reachable state (1) no stored game has both seats
    empty; (2) an id that is in the registry before an event and gone after
    it was removed by the close event of a socket whose binding names that
    id, whose bound seat holds it and whose other seat is empty; (3) the
    close event of a socket whose binding names a stored game and whose
    bound seat holds it leaves the game stored with that seat cleared when
    the other seat is occupied, and deletes it when the other seat is
    empty; (4) when the white seat holds a socket bound to the game as
    white and the black seat holds a socket bound to it as black, their two
    close events handled one right after the other, in either order,
    remove the game, and a [join_game] for that id is then answered with
    "Game not found" and changes nothing. *)
Theorem session_lifecycle s :
  reachable s ->
  (forall id g, games s !! id = Some g -> vacant (players g) = false)
  /\ (forall open e s' out id,
        handle open s e = Done s' out ->
        is_Some (games s !! id) ->
        games s' !! id = None ->
        exists ws g c,
          e = Close ws
          /\ chessRole s !! ws = Some {| gameId := id; role_color := c |}
          /\ games s !! id = Some g
          /\ slot c (players g) = Some ws
          /\ slot (opposite c) (players g) = None)
  /\ (forall ws id c g,
        chessRole s !! ws = Some {| gameId := id; role_color := c |} ->
        games s !! id = Some g ->
        slot c (players g) = Some ws ->
        games (cleanupConnection s ws) !! id =
          match slot (opposite c) (players g) with
          | Some _ => Some {| game_chess := game_chess g;
                              players := set_slot c None (players g);
                              createdAt := createdAt g |}
          | None => None
          end)
  /\ (forall id g x y s2,
        games s !! id = Some g ->
        players g = {| w := Some x; b := Some y |} ->
        chessRole s !! x = Some {| gameId := id; role_color := W |} ->
        chessRole s !! y = Some {| gameId := id; role_color := B |} ->
        s2 = cleanupConnection (cleanupConnection s x) y
        \/ s2 = cleanupConnection (cleanupConnection s y) x ->
        games s2 !! id = None
        /\ forall open ws,
             joinGame open s2 ws (Some (JStr id))
             = (s2, safeSend open (Some ws) (Error "Game not found"))).
Proof.
  intros Hreach. pose proof (reachable_seated s Hreach) as Hs.
  split; [exact Hs|]. split; [|split].
  - intros open e s' out id. by apply registry_delete_step.
  - intros ws id c g Hr Hg Hslot.
    rewrite (cleanup_bound s ws id c g Hr Hg Hslot). simpl.
    destruct (slot (opposite c) (players g)).
    + by rewrite lookup_insert_eq.
    + by rewrite lookup_delete_eq.
  - intros id g x y s2 Hg Hp Hx Hy Hs2.
    destruct (cleanup_both s id g x y Hg Hp Hx Hy) as [Hxy Hyx].
    assert (games s2 !! id = None) as Hgone by (by destruct Hs2 as [-> | ->]).
    split; [done|]. intros open ws. by apply joinGame_absent.
Qed.

(** C9: a close event of a socket that never got a role binding changes
    nothing; handling a close event twice in a row gives the state the
    first one gave; in a reachable state a close event of a bound socket
    whose session is gone, or whose seat no longer holds it, changes
    nothing; and the listener never raises. *)
Theorem cleanup_idempotent s ws :
  (chessRole s !! ws = None -> cleanupConnection s ws = s)
  /\ cleanupConnection (cleanupConnection s ws) ws = cleanupConnection s ws
  /\ (reachable s ->
      forall r, chessRole s !! ws = Some r ->
        (games s !! gameId r = None
         \/ exists g, games s !! gameId r = Some g
              /\ slot (role_color r) (players g) <> Some ws) ->
        cleanupConnection s ws = s)
  /\ onClose s ws = Done (cleanupConnection s ws) [].
Proof.
  split; [apply cleanup_unbound|]. split; [apply cleanup_twice|].
  split; [|done].
  intros Hreach r Hr Hcase. eapply cleanup_stale; [|done..].
  by apply reachable_seated.
Qed.

(** ** Joining *)

(** C4: on a stored session [joinGame] seats the requester as black when
    the black seat is empty, else as white when the white seat is empty,
    and else answers "Game already has two players" and changes nothing;
    whoever joins a session right after its creation is seated as black. *)
Theorem joinGame_seat_policy open s ws id g :
  games s !! id = Some g ->
  let r := joinGame open s ws (Some (JStr id)) in
  (b (players g) = None ->
   r = ({| games := <[id := {| game_chess := game_chess g;
                               players := {| w := w (players g); b := Some ws |};
                               createdAt := createdAt g |}]> (games s);
           chessRole := <[ws := {| gameId := id; role_color := B |}]> (chessRole s) |},
        (safeSend open (Some ws) (GameJoined id B (fen (game_chess g)))
         ++ safeSend open (w (players g)) (OpponentJoined id B))%list))
  /\ (is_Some (b (players g)) -> w (players g) = None ->
      r = ({| games := <[id := {| game_chess := game_chess g;
                                  players := {| w := Some ws; b := b (players g) |};
                                  createdAt := createdAt g |}]> (games s);
              chessRole := <[ws := {| gameId := id; role_color := W |}]> (chessRole s) |},
           (safeSend open (Some ws) (GameJoined id W (fen (game_chess g)))
            ++ safeSend open (b (players g)) (OpponentJoined id W))%list))
  /\ (is_Some (b (players g)) -> is_Some (w (players g)) ->
      r = (s, safeSend open (Some ws) (Error "Game already has two players")))
  /\ (forall open' random now creator,
        chessRole
          (joinGame open (createGame open' random now s creator).1 ws
             (Some (JStr (generateGameId random)))).1 !! ws
        = Some {| gameId := generateGameId random; role_color := B |}).
Proof.
  intros Hg r. subst r. unfold joinGame. rewrite games_get_str, Hg. simpl.
  split; [|split; [|split]].
  - intros ->. unfold seat_joiner. simpl.
    by destruct (w (players g)).
  - intros [y Hy] Hw. rewrite Hy, Hw. unfold seat_joiner. simpl.
    by rewrite Hy.
  - intros [y ->] [x ->]. done.
  - intros open' random now creator. unfold createGame. simpl.
    rewrite lookup_insert_eq. simpl. unfold seat_joiner. simpl.
    by rewrite lookup_insert_eq.
Qed.

(** ** Moves *)

(** [handleMove] for a requester whose binding names the addressed game. *)
Lemma handleMove_bound open s ws msg id g c :
  get_field msg "gameId" = Some (JStr id) ->
  games s !! id = Some g ->
  chessRole s !! ws = Some {| gameId := id; role_color := c |} ->
  handleMove open s ws msg =
    if bool_decide (c = turn (game_chess g)) then
      match move (game_chess g) (request_of msg) with
      | MoveThrew => (s, safeSend open (Some ws) (Error "Move error"))
      | NoMove => (s, safeSend open (Some ws) (Error "Illegal move"))
      | Moved pos m =>
          let pl := MoveMade id (fen pos) m (turn pos)
                      (isGameOver pos) (isCheckmate pos) (isDraw pos) in
          ({| games := <[id := {| game_chess := pos;
                                  players := players g;
                                  createdAt := createdAt g |}]> (games s);
              chessRole := chessRole s |},
           (safeSend open (w (players g)) pl
            ++ safeSend open (b (players g)) pl)%list)
      end
    else (s, safeSend open (Some ws) (Error "Not your turn")).
Proof.
  intros Hid Hg Hr. unfold handleMove.
  rewrite Hid, games_get_str, Hg. simpl. rewrite Hr. simpl.
  rewrite String.eqb_refl. simpl.
  by destruct (bool_decide (c = turn (game_chess g))).
Qed.

(** [handleMove] for a requester without a binding to the addressed game. *)
Lemma handleMove_stranger open s ws msg id g :
  get_field msg "gameId" = Some (JStr id) ->
  games s !! id = Some g ->
  (forall c, chessRole s !! ws <> Some {| gameId := id; role_color := c |}) ->
  handleMove open s ws msg
  = (s, safeSend open (Some ws) (Error "You are not part of this game")).
Proof.
  intros Hid Hg Hr. unfold handleMove.
  rewrite Hid, games_get_str, Hg. simpl.
  destruct (chessRole s !! ws) as [[id' c]|] eqn:Hrole; [|done].
  simpl. destruct (String.eqb id' id) eqn:Heq; [|done].
  apply String.eqb_eq in Heq as ->. by destruct (Hr c).
Qed.

(** A [make_move] message reaches [handleMove]. *)
Lemma onMessage_make_move open random now s ws msg :
  get_field msg "type" = Some (JStr "make_move") ->
  onMessage open random now s ws (Some msg) = returned (handleMove open s ws msg).
Proof.
  intros Ht. unfold onMessage.
  destruct msg; try done; unfold dispatch; by rewrite Ht.
Qed.

(** C5: a [make_move] on a stored session by a socket bound to that game
    under the colour that is not to move is answered with "Not your turn"
    through the guard of [safeSend], the state stays as it was and no frame
    goes to anyone but the requester. *)
Theorem handleMove_not_your_turn open s ws msg id g c :
  get_field msg "gameId" = Some (JStr id) ->
  games s !! id = Some g ->
  chessRole s !! ws = Some {| gameId := id; role_color := c |} ->
  c <> turn (game_chess g) ->
  handleMove open s ws msg = (s, safeSend open (Some ws) (Error "Not your turn"))
  /\ (forall f, f ∈ (handleMove open s ws msg).2 -> f = (ws, Error "Not your turn"))
  /\ (open ws = true -> (handleMove open s ws msg).2 = [(ws, Error "Not your turn")]).
Proof.
  intros Hid Hg Hr Hturn.
  rewrite (handleMove_bound open s ws msg id g c Hid Hg Hr).
  rewrite bool_decide_eq_false_2; [|done]. cbn [fst snd].
  split; [done|]. split.
  - intros [x q] Hin. apply safeSend_elem in Hin as (Hx & Hq & _).
    simpl in *. by simplify_eq.
  - apply safeSend_open.
Qed.

(** C6: when the engine plays the move, one [move_made] payload built from
    the position after the move goes to the white seat and to the black
    seat through the guard of [safeSend]: a frame leaves exactly for a
    seated socket that is writable, it carries that payload, and the
    stored session holds the position after the move; nothing else in the
    state changes. *)
Theorem handleMove_broadcast open s ws msg id g c pos m :
  get_field msg "gameId" = Some (JStr id) ->
  games s !! id = Some g ->
  chessRole s !! ws = Some {| gameId := id; role_color := c |} ->
  c = turn (game_chess g) ->
  move (game_chess g) (request_of msg) = Moved pos m ->
  let pl := MoveMade id (fen pos) m (turn pos)
              (isGameOver pos) (isCheckmate pos) (isDraw pos) in
  let r := handleMove open s ws msg in
  r.2 = (safeSend open (w (players g)) pl ++ safeSend open (b (players g)) pl)%list
  /\ (forall f, f ∈ r.2 <->
        f.2 = pl /\ open f.1 = true
        /\ (w (players g) = Some f.1 \/ b (players g) = Some f.1))
  /\ games r.1 !! id = Some {| game_chess := pos;
                              players := players g;
                              createdAt := createdAt g |}
  /\ (forall id', id' <> id -> games r.1 !! id' = games s !! id')
  /\ chessRole r.1 = chessRole s.
Proof.
  intros Hid Hg Hr Hturn Hmove pl r. subst r.
  rewrite (handleMove_bound open s ws msg id g c Hid Hg Hr).
  rewrite bool_decide_eq_true_2; [|done]. rewrite Hmove. cbn [fst snd]. fold pl.
  split; [done|]. split; [|split; [|split]].
  - intros f. rewrite elem_of_app, !safeSend_elem. split.
    + intros [(Hw & Hp & Ho)|(Hb & Hp & Ho)]; eauto.
    + intros (Hp & Ho & [Hw|Hb]); [left|right]; done.
  - simpl. by rewrite lookup_insert_eq.
  - intros id' Hne. simpl. by rewrite lookup_insert_ne.
  - done.
Qed.

(** C7: when the engine returns no move the requester is answered with
    "Illegal move", when the engine raises with "Move error"; either way
    the state stays as it was and the reply is the only frame. *)
Theorem handleMove_rejected open s ws msg id g c :
  get_field msg "gameId" = Some (JStr id) ->
  games s !! id = Some g ->
  chessRole s !! ws = Some {| gameId := id; role_color := c |} ->
  c = turn (game_chess g) ->
  (move (game_chess g) (request_of msg) = NoMove ->
   handleMove open s ws msg = (s, safeSend open (Some ws) (Error "Illegal move")))
  /\ (move (game_chess g) (request_of msg) = MoveThrew ->
      handleMove open s ws msg = (s, safeSend open (Some ws) (Error "Move error")))
  /\ (move (game_chess g) (request_of msg) = NoMove
      \/ move (game_chess g) (request_of msg) = MoveThrew ->
      forall f, f ∈ (handleMove open s ws msg).2 -> f.1 = ws).
Proof.
  intros Hid Hg Hr Hturn.
  rewrite (handleMove_bound open s ws msg id g c Hid Hg Hr).
  rewrite bool_decide_eq_true_2; [|done].
  split; [by intros ->|]. split; [by intros ->|].
  intros [-> | ->] f Hin; cbn [fst snd] in Hin;
    by apply safeSend_elem in Hin as ([= ->] & _).
Qed.

(** C10: the participant check of [handleMove] looks at the requester's
    binding alone.  A requester whose binding does not name the addressed
    game is answered with "You are not part of this game", also when a seat
    of that game holds it; a requester whose binding names the game passes
    the check whatever the seats hold (with a writable requester the reply
    "You are not part of this game" leaves exactly when the binding does
    not name the game), and the engine plays its move for the bound colour. *)
Theorem handleMove_authorization open s ws msg id g :
  get_field msg "gameId" = Some (JStr id) ->
  games s !! id = Some g ->
  ((forall c, chessRole s !! ws <> Some {| gameId := id; role_color := c |}) ->
   handleMove open s ws msg
   = (s, safeSend open (Some ws) (Error "You are not part of this game")))
  /\ (open ws = true ->
      ((ws, Error "You are not part of this game") ∈ (handleMove open s ws msg).2
       <-> forall c, chessRole s !! ws <> Some {| gameId := id; role_color := c |}))
  /\ (forall c, chessRole s !! ws = Some {| gameId := id; role_color := c |} ->
      c <> turn (game_chess g) ->
      handleMove open s ws msg = (s, safeSend open (Some ws) (Error "Not your turn")))
  /\ (forall c pos m,
        chessRole s !! ws = Some {| gameId := id; role_color := c |} ->
        c = turn (game_chess g) ->
        move (game_chess g) (request_of msg) = Moved pos m ->
        games (handleMove open s ws msg).1 !! id
        = Some {| game_chess := pos; players := players g; createdAt := createdAt g |}).
Proof.
  intros Hid Hg. split; [by apply (handleMove_stranger open s ws msg id g)|].
  split; [|split].
  - intros Hopen. split.
    + intros Hin c Hr. revert Hin.
      rewrite (handleMove_bound open s ws msg id g c Hid Hg Hr).
      case_bool_decide.
      * destruct (move _ _); cbn [fst snd];
          rewrite ?elem_of_app, ?safeSend_elem;
          [intros [(_ & [=] & _)|(_ & [=] & _)]
          |intros (_ & [=] & _)..].
      * cbn [fst snd]. rewrite safeSend_elem. intros (_ & [=] & _).
    + intros Hr. rewrite (handleMove_stranger open s ws msg id g Hid Hg Hr).
      cbn [fst snd]. by apply safeSend_elem.
  - intros c Hr Hturn.
    rewrite (handleMove_bound open s ws msg id g c Hid Hg Hr).
    by rewrite bool_decide_eq_false_2.
  - intros c pos m Hr Hturn Hmove.
    rewrite (handleMove_bound open s ws msg id g c Hid Hg Hr).
    rewrite bool_decide_eq_true_2; [|done]. rewrite Hmove. simpl.
    by rewrite lookup_insert_eq.
Qed.

(** ** Unrecognised input *)

(** Input that the listener recognises as bad is answered to its sender
    and changes nothing. *)
Lemma onMessage_bad_input open random now s ws data :
  (data = None
   \/ exists msg, data = Some msg /\ msg <> JNull
        /\ get_field msg "type" <> Some (JStr "create_game")
        /\ get_field msg "type" <> Some (JStr "join_game")
        /\ get_field msg "type" <> Some (JStr "make_move")) ->
  exists text,
    onMessage open random now s ws data
    = Done s (safeSend open (Some ws) (Error text)).
Proof.
  intros [->|(msg & -> & Hnull & Hc & Hj & Hm)]; [by eexists|].
  assert (onMessage open random now s ws (Some msg)
          = dispatch open random now s ws msg) as -> by (by destruct msg).
  unfold dispatch.
  destruct (get_field msg "type") as [[| | |t| |]|]; try by eexists.
  destruct (String.eqb t "create_game") eqn:H1;
    [apply String.eqb_eq in H1 as ->; done|].
  destruct (String.eqb t "join_game") eqn:H2;
    [apply String.eqb_eq in H2 as ->; done|].
  destruct (String.eqb t "make_move") eqn:H3;
    [apply String.eqb_eq in H3 as ->; done|].
  by eexists.
Qed.

(** C8 (the code at the failing input): a frame whose text is the JSON
    literal [null] parses, is none of the three recognised kinds, and makes
    the listener raise outside its [try]: no reply is sent and the
    exception escapes the handler. *)
Theorem onMessage_null_escapes open random now s ws :
  onMessage open random now s ws (Some JNull) = Uncaught
  /\ forall s' out,
       handle open s (Message ws (Some JNull) random now) <> Done s' out.
Proof. split; [done|]. intros s' out. simpl. discriminate. Qed.

End Properties.

(** * The server on the ply-counter engine *)

Lemma reachable_lobby : reachable lobby.
Proof.
  apply (reachable_step initial (Message 1 (Some create_msg) draws_A 10)
           always_open lobby
           (createGame always_open draws_A 10 initial 1).2);
    [apply reachable_initial|reflexivity].
Qed.

Lemma reachable_paired : reachable paired.
Proof.
  apply (reachable_step lobby (Message 2 (Some (join_msg "AAAAAA")) draws_A 11)
           always_open paired
           (joinGame always_open lobby 2 (Some (JStr "AAAAAA"))).2);
    [apply reachable_lobby|reflexivity].
Qed.

Lemma reachable_rebound : reachable rebound.
Proof.
  apply (reachable_step paired (Message 1 (Some create_msg) draws_B 20)
           always_open rebound
           (createGame always_open draws_B 20 paired 1).2);
    [apply reachable_paired|reflexivity].
Qed.

Lemma paired_game :
  games paired !! "AAAAAA"
  = Some {| game_chess := 0 : chess (RulesEngine := ply_engine);
            players := {| w := Some 1; b := Some 2 |};
            createdAt := 10 |}.
Proof. vm_compute. reflexivity. Qed.

(** C1, counterexample: in a reachable state the id that [createGame]
    draws is already in the registry, and the session stored under it is
    replaced by the new one. *)
Lemma createGame_id_taken :
  reachable lobby
  /\ games lobby !! generateGameId draws_A
     = Some {| game_chess := 0 : chess (RulesEngine := ply_engine);
               players := {| w := Some 1; b := None |};
               createdAt := 10 |}
  /\ games (createGame always_open draws_A 20 lobby 2).1 !! generateGameId draws_A
     = Some {| game_chess := 0 : chess (RulesEngine := ply_engine);
               players := {| w := Some 2; b := None |};
               createdAt := 20 |}.
Proof.
  split; [apply reachable_lobby|]. split; vm_compute; reflexivity.
Qed.

(** Socket 1 creates the first game. *)
Lemma createGame_inserts_example :
  games lobby !! "AAAAAA"
  = Some {| game_chess := 0 : chess (RulesEngine := ply_engine);
            players := {| w := Some 1; b := None |};
            createdAt := 10 |}.
Proof.
  exact (proj1 (createGame_inserts (E:=ply_engine) always_open draws_A 10 initial 1)).
Defined.

(** C2, counterexample: socket 1, bound to ([AAAAAA], white), sends
    [create_game] again and is bound to ([BBBBBB], white) instead. *)
Lemma role_binding_replaced :
  reachable lobby
  /\ chessRole lobby !! 1 = Some {| gameId := "AAAAAA"; role_color := W |}
  /\ exists s' out,
       handle always_open lobby (Message 1 (Some create_msg) draws_B 20)
       = Done s' out
       /\ chessRole s' !! 1 = Some {| gameId := "BBBBBB"; role_color := W |}
       /\ chessRole s' !! 1 <> chessRole lobby !! 1.
Proof.
  split; [apply reachable_lobby|]. split; [vm_compute; reflexivity|].
  eexists _, _. split; [reflexivity|]. split; [vm_compute; reflexivity|].
  vm_compute. discriminate.
Qed.

(** The second [create_game] of socket 1, seen through the step rule. *)
Lemma role_binding_step_example :
  chessRole (createGame always_open draws_B 20 lobby 1).1 !! 1
  = chessRole lobby !! 1
  \/ exists msg random now id c g,
       Message 1 (Some create_msg) draws_B 20 = Message 1 (Some msg) random now
       /\ (get_field msg "type" = Some (JStr "create_game")
           \/ get_field msg "type" = Some (JStr "join_game"))
       /\ chessRole (createGame always_open draws_B 20 lobby 1).1 !! 1
          = Some {| gameId := id; role_color := c |}
       /\ games (createGame always_open draws_B 20 lobby 1).1 !! id = Some g
       /\ slot c (players g) = Some 1.
Proof.
  apply (proj1 (role_binding_step (E:=ply_engine) always_open lobby 1)
           (Message 1 (Some create_msg) draws_B 20)
           (createGame always_open draws_B 20 lobby 1).1
           (createGame always_open draws_B 20 lobby 1).2).
  reflexivity.
Defined.

(** C3 (the code at the failing input): sockets 1 and 2 hold the two
    seats of [AAAAAA]; socket 1 sends [create_game] again before both
    sockets close.  [cleanupConnection] looks at the latest binding of
    socket 1 only, so the white seat of [AAAAAA] is never cleared: after
    both players are gone the game is still stored, with the closed socket
    in its white seat, and a late [join_game] is seated instead of being
    answered with "Game not found". *)
Lemma stale_seat_keeps_session :
  exists s out,
    run ∅ initial both_leave = Some (s, out)
    /\ reachable s
    /\ games s !! "AAAAAA"
       = Some {| game_chess := 0 : chess (RulesEngine := ply_engine);
                 players := {| w := Some 1; b := None |};
                 createdAt := 10 |}
    /\ (joinGame (fun ws => bool_decide (ws = 3)) s 3 (Some (JStr "AAAAAA"))).2
       = [(3, GameJoined "AAAAAA" B "w")].
Proof.
  destruct (run (E:=ply_engine) ∅ initial both_leave) as [[s out]|] eqn:Hrun;
    [|by vm_compute in Hrun].
  exists s, out. split; [done|].
  split; [by eapply run_reachable; [apply reachable_initial|exact Hrun]|].
  vm_compute in Hrun. injection Hrun as <- _.
  split; vm_compute; reflexivity.
Qed.

(** The same slip with one socket in both seats: socket 1 creates
    [AAAAAA], joins it itself and closes.  Only the seat of its latest
    binding is cleared. *)
Lemma self_join_keeps_session :
  exists s out,
    run ∅ initial
      [Connect 1; Message 1 (Some create_msg) draws_A 10;
       Message 1 (Some (join_msg "AAAAAA")) draws_A 11; Close 1]
    = Some (s, out)
    /\ games s !! "AAAAAA"
       = Some {| game_chess := 0 : chess (RulesEngine := ply_engine);
                 players := {| w := Some 1; b := None |};
                 createdAt := 10 |}.
Proof.
  destruct (run (E:=ply_engine) ∅ initial _) as [[s out]|] eqn:Hrun;
    [|by vm_compute in Hrun].
  exists s, out. split; [done|].
  vm_compute in Hrun. injection Hrun as <- _.
  vm_compute. reflexivity.
Qed.

(** Both players of [AAAAAA] close while bound to it. *)
Lemma session_lifecycle_example :
  games (cleanupConnection (cleanupConnection paired 1) 2) !! "AAAAAA" = None
  /\ forall open ws,
       joinGame open (cleanupConnection (cleanupConnection paired 1) 2) ws
         (Some (JStr "AAAAAA"))
       = (cleanupConnection (cleanupConnection paired 1) 2,
          safeSend open (Some ws) (Error "Game not found")).
Proof.
  refine (proj2 (proj2 (proj2 (session_lifecycle (E:=ply_engine) paired _)))
            "AAAAAA" {| game_chess := 0 : chess (RulesEngine := ply_engine);
                        players := {| w := Some 1; b := Some 2 |};
                        createdAt := 10 |} 1 2 _ _ _ _ _ _).
  - apply reachable_paired.
  - vm_compute. reflexivity.
  - reflexivity.
  - vm_compute. reflexivity.
  - vm_compute. reflexivity.
  - left. reflexivity.
Defined.

(** The first joiner takes the black seat and the creator is told. *)
Lemma joinGame_seat_policy_example :
  joinGame always_open lobby 2 (Some (JStr "AAAAAA"))
  = ({| games := <["AAAAAA" := {| game_chess := 0 : chess (RulesEngine := ply_engine);
                                  players := {| w := Some 1; b := Some 2 |};
                                  createdAt := 10 |}]> (games lobby);
        chessRole := <[2 := {| gameId := "AAAAAA"; role_color := B |}]> (chessRole lobby) |},
     [(2, GameJoined "AAAAAA" B "w"); (1, OpponentJoined "AAAAAA" B)]).
Proof.
  refine (proj1 (joinGame_seat_policy (E:=ply_engine) always_open lobby 2 "AAAAAA"
                   {| game_chess := 0 : chess (RulesEngine := ply_engine);
                      players := {| w := Some 1; b := None |};
                      createdAt := 10 |} _) _).
  - vm_compute. reflexivity.
  - reflexivity.
Defined.

(** Black tries to open the game. *)
Lemma handleMove_not_your_turn_example :
  handleMove always_open paired 2 (move_msg "AAAAAA" "e7" "e5")
  = (paired, [(2, Error "Not your turn")]).
Proof.
  refine (proj1 (handleMove_not_your_turn (E:=ply_engine) always_open paired 2
                   (move_msg "AAAAAA" "e7" "e5") "AAAAAA"
                   {| game_chess := 0 : chess (RulesEngine := ply_engine);
                      players := {| w := Some 1; b := Some 2 |};
                      createdAt := 10 |} B _ _ _ _)).
  - reflexivity.
  - vm_compute. reflexivity.
  - vm_compute. reflexivity.
  - simpl. discriminate.
Defined.

(** White opens; both seats get the same frame. *)
Lemma handleMove_broadcast_example :
  (handleMove always_open paired 1 (move_msg "AAAAAA" "e2" "e4")).2
  = [(1, MoveMade (E:=ply_engine) "AAAAAA" "b" ("e2", "e4") B false false false);
     (2, MoveMade (E:=ply_engine) "AAAAAA" "b" ("e2", "e4") B false false false)].
Proof.
  refine (proj1 (handleMove_broadcast (E:=ply_engine) always_open paired 1
                   (move_msg "AAAAAA" "e2" "e4") "AAAAAA"
                   {| game_chess := 0 : chess (RulesEngine := ply_engine);
                      players := {| w := Some 1; b := Some 2 |};
                      createdAt := 10 |} W 1 ("e2", "e4") _ _ _ _ _)).
  - reflexivity.
  - vm_compute. reflexivity.
  - vm_compute. reflexivity.
  - reflexivity.
  - reflexivity.
Defined.

(** The engine refuses a move from a square to itself. *)
Lemma handleMove_rejected_example :
  handleMove always_open paired 1 (move_msg "AAAAAA" "e2" "e2")
  = (paired, [(1, Error "Illegal move")]).
Proof.
  refine (proj1 (handleMove_rejected (E:=ply_engine) always_open paired 1
                   (move_msg "AAAAAA" "e2" "e2") "AAAAAA"
                   {| game_chess := 0 : chess (RulesEngine := ply_engine);
                      players := {| w := Some 1; b := Some 2 |};
                      createdAt := 10 |} W _ _ _ _) _).
  - reflexivity.
  - vm_compute. reflexivity.
  - vm_compute. reflexivity.
  - reflexivity.
  - reflexivity.
Defined.

(** The engine raising: a request that names no squares. *)
Lemma handleMove_rejected_raise_example :
  handleMove always_open paired 1
    (JObj [("type", JStr "make_move"); ("gameId", JStr "AAAAAA")])
  = (paired, [(1, Error "Move error")]).
Proof. vm_compute. reflexivity. Qed.

(** A socket that never created or joined a game closes. *)
Lemma cleanup_idempotent_example :
  cleanupConnection paired 7 = paired.
Proof.
  refine (proj1 (cleanup_idempotent (E:=ply_engine) paired 7) _).
  vm_compute. reflexivity.
Defined.

(** Socket 1 still sits in the white seat of [AAAAAA], but its binding
    now names [BBBBBB]. *)
Lemma handleMove_authorization_example :
  slot W {| w := Some 1; b := Some 2 |} = Some 1
  /\ handleMove always_open rebound 1 (move_msg "AAAAAA" "e2" "e4")
     = (rebound, [(1, Error "You are not part of this game")]).
Proof.
  split; [reflexivity|].
  refine (proj1 (handleMove_authorization (E:=ply_engine) always_open rebound 1
                   (move_msg "AAAAAA" "e2" "e4") "AAAAAA"
                   {| game_chess := 0 : chess (RulesEngine := ply_engine);
                      players := {| w := Some 1; b := Some 2 |};
                      createdAt := 10 |} _ _) _).
  - reflexivity.
  - vm_compute. reflexivity.
  - intros c. vm_compute. discriminate.
Defined.

(** * More about [generateGameId] *)

Lemma list_ascii_append (x y : string) :
  String.list_ascii_of_string (x +:+ y)
  = (String.list_ascii_of_string x ++ String.list_ascii_of_string y)%list.
Proof. induction x as [|a x IH]; simpl; [done|]. by rewrite IH. Qed.

Lemma get_lookup (x : string) : forall n,
  String.get n x = String.list_ascii_of_string x !! n.
Proof.
  induction x as [|a x IH]; intros n; simpl; [by destruct n|].
  destruct n as [|n]; simpl; [done|]. apply IH.
Qed.

Lemma alphabet_NoDup : NoDup alphabet.
Proof. apply (bool_decide_unpack _). vm_compute. exact I. Qed.

Lemma alphabet_no_lookalike a : a ∈ alphabet -> a ∉ lookalikes.
Proof.
  intros Ha Hl. revert Ha. unfold alphabet. simpl.
  unfold lookalikes in Hl. simpl in Hl.
  repeat (apply elem_of_cons in Hl as [->|Hl];
          [intros Ha; by repeat (apply elem_of_cons in Ha as [?|Ha]; [done|]);
             apply elem_of_nil in Ha|]).
  by apply elem_of_nil in Hl.
Qed.

(** Inside the string, [chars[i]] is the one symbol at that index. *)
Lemma char_at_alphabet (i : Z) :
  (0 <= i < 32)%Z ->
  exists a, alphabet !! Z.to_nat i = Some a
            /\ char_at chars i = String a EmptyString.
Proof.
  intros [Hlo Hhi]. unfold char_at.
  rewrite (proj2 (Z.ltb_ge i 0) Hlo). rewrite get_lookup. fold alphabet.
  destruct (alphabet !! Z.to_nat i) as [a|] eqn:Hget; [by exists a|].
  apply lookup_ge_None in Hget. change (length alphabet) with 32%nat in Hget. lia.
Qed.

Lemma append_inj_length (x1 x2 y1 y2 : string) :
  String.length x1 = String.length x2 ->
  x1 +:+ y1 = x2 +:+ y2 -> x1 = x2 /\ y1 = y2.
Proof.
  revert x2. induction x1 as [|a x1 IH]; intros [|a2 x2]; simpl; try done.
  intros [= Hlen] [= -> Happ]. destruct (IH x2 Hlen Happ) as [-> ->]. done.
Qed.

Lemma generate_loop_symbols random n : forall i id,
  fair random ->
  Forall (fun a => a ∈ alphabet) (String.list_ascii_of_string id) ->
  Forall (fun a => a ∈ alphabet) (String.list_ascii_of_string (generate_loop random i n id)).
Proof.
  induction n as [|n IH]; intros i id Hr Hid; simpl; [done|].
  apply IH; [done|]. rewrite list_ascii_append. apply Forall_app. split; [done|].
  destruct (Hr i) as [Hlo Hhi].
  destruct (char_at_alphabet (pick (random i)) (pick_range _ Hlo Hhi))
    as (a & Ha & ->).
  simpl. apply Forall_singleton. by eapply list_elem_of_lookup_2.
Qed.

Lemma generateGameId_symbols random :
  fair random ->
  Forall (fun a => a ∈ alphabet /\ a ∉ lookalikes)
    (String.list_ascii_of_string (generateGameId random)).
Proof.
  intros Hr.
  eapply Forall_impl; [by apply (generate_loop_symbols random 6 0 EmptyString)|].
  intros a Ha. split; [done|by apply alphabet_no_lookalike].
Qed.

(** X1: with draws in [0, 1) a generated id has exactly six symbols, each
    taken from [chars] and none of them one of the look-alikes 0, O, 1, I. *)
Theorem generateGameId_format random :
  fair random ->
  String.length (generateGameId random) = 6
  /\ Forall (fun a => a ∈ alphabet /\ a ∉ lookalikes)
       (String.list_ascii_of_string (generateGameId random)).
Proof.
  intros Hr. split; [by apply generateGameId_length|by apply generateGameId_symbols].
Qed.

Lemma generate_loop_inj r1 r2 n : forall i id1 id2,
  fair r1 -> fair r2 ->
  String.length id1 = String.length id2 ->
  generate_loop r1 i n id1 = generate_loop r2 i n id2 ->
  id1 = id2 /\ forall k, (i <= k < i + n)%nat -> pick (r1 k) = pick (r2 k).
Proof.
  induction n as [|n IH]; intros i id1 id2 H1 H2 Hlen Heq; simpl in Heq.
  - split; [done|]. intros k Hk. lia.
  - destruct (H1 i) as [Hlo1 Hhi1]. destruct (H2 i) as [Hlo2 Hhi2].
    pose proof (pick_range _ Hlo1 Hhi1) as Hp1.
    pose proof (pick_range _ Hlo2 Hhi2) as Hp2.
    destruct (char_at_alphabet _ Hp1) as (a1 & Ha1 & Hc1).
    destruct (char_at_alphabet _ Hp2) as (a2 & Ha2 & Hc2).
    apply IH in Heq as [Happ Hrest]; [|done..|].
    2:{ rewrite !length_append, Hc1, Hc2. simpl. lia. }
    apply append_inj_length in Happ as [-> Hc]; [|done].
    split; [done|]. intros k Hk.
    destruct (decide (k = i)) as [->|Hne]; [|apply Hrest; lia].
    rewrite Hc1, Hc2 in Hc. injection Hc as ->.
    pose proof (NoDup_lookup _ _ _ _ alphabet_NoDup Ha1 Ha2) as Hn. lia.
Qed.

Lemma generate_loop_ext r1 r2 n : forall i id,
  (forall k, (i <= k < i + n)%nat -> pick (r1 k) = pick (r2 k)) ->
  generate_loop r1 i n id = generate_loop r2 i n id.
Proof.
  induction n as [|n IH]; intros i id Hk; simpl; [done|].
  rewrite (Hk i) by lia. apply IH. intros k ?. apply Hk. lia.
Qed.

(** X2: with draws in [0, 1) two calls of [generateGameId] return the same id
    exactly when their six index draws agree: the 32 symbols are distinct,
    so an id determines its draws. *)
Theorem generateGameId_collision r1 r2 :
  fair r1 -> fair r2 ->
  (generateGameId r1 = generateGameId r2 <-> picks r1 = picks r2).
Proof.
  intros H1 H2. unfold generateGameId, picks. split.
  - intros Heq. apply generate_loop_inj in Heq as [_ Hk]; [|done..].
    simpl. by rewrite !Hk by lia.
  - intros Hp. apply generate_loop_ext. intros k Hk. simpl in Hp.
    injection Hp as ? ? ? ? ? ?.
    do 6 (destruct k as [|k]; [done|]). lia.
Qed.

(** * More about the handlers *)

Section Handlers.

Context `{E : RulesEngine}.

Implicit Types (s : server) (ws : conn) (g : game) (id : string)
  (open : conn -> bool) (c : color) (p : payload) (f : frame).

(** ** What leaves through [safeSend] *)

Lemma createGame_frames open random now s ws :
  (createGame open random now s ws).2
  = safeSend open (Some ws)
      (GameCreated (generateGameId random) W (fen new_Chess)).
Proof. done. Qed.

Lemma seat_joiner_frames open s ws id g c :
  (seat_joiner open s ws id g c).2
  = (safeSend open (Some ws) (GameJoined id c (fen (game_chess g)))
     ++ safeSend open (slot (opposite c) (players g)) (OpponentJoined id c))%list.
Proof.
  unfold seat_joiner. cbn [fst snd game_chess players].
  rewrite slot_set_opposite. by destruct (slot (opposite c) (players g)).
Qed.

(** Every listener writes at most two frames, each through the guard. *)
Lemma handle_frames open s e s' out :
  handle open s e = Done s' out ->
  exists o1 p1 o2 p2,
    out = (safeSend open o1 p1 ++ safeSend open o2 p2)%list.
Proof.
  assert (forall o p, exists o1 p1 o2 p2,
            safeSend open o p = (safeSend open o1 p1 ++ safeSend open o2 p2)%list)
    as Hone.
  { intros o p. exists o, p, None, p. simpl. by rewrite app_nil_r. }
  assert (forall s0 ws key, exists o1 p1 o2 p2,
            (joinGame open s0 ws key).2
            = (safeSend open o1 p1 ++ safeSend open o2 p2)%list) as Hjoin.
  { intros s0 ws key.
    destruct (joinGame_cases open s0 ws key)
      as [[_ ->]|(id & g & _ & _ & [[_ ->]|[(_ & _ & ->)|(_ & _ & ->)]])];
      try apply Hone.
    all: rewrite seat_joiner_frames; by eexists _, _, _, _. }
  assert (forall s0 ws msg, exists o1 p1 o2 p2,
            (handleMove open s0 ws msg).2
            = (safeSend open o1 p1 ++ safeSend open o2 p2)%list) as Hmove.
  { intros s0 ws msg. unfold handleMove.
    repeat (case_match; cbn [fst snd]; try apply Hone).
    by eexists _, _, _, _. }
  destruct e as [x|x data random now|x]; cbn [handle];
    unfold onConnection, onClose.
  - intros [= _ <-]. refine (Hone (Some _) _).
  - unfold onMessage.
    destruct data as [msg|]; [|intros [= _ <-]; refine (Hone (Some _) _)].
    assert (dispatch open random now s x msg = Done s' out ->
            exists o1 p1 o2 p2,
              out = (safeSend open o1 p1 ++ safeSend open o2 p2)%list) as Hd.
    { unfold dispatch, returned.
      repeat (case_match; try (intros [= _ <-]; refine (Hone (Some _) _))).
      all: intros [= _ <-]; first [apply Hjoin|apply Hmove]. }
    destruct msg; try done; apply Hd.
  - intros [= _ <-]. exists None, (Error EmptyString), None, (Error EmptyString). done.
Qed.

(** X3: whatever the event, a listener writes at most two frames, and only
    to sockets whose [readyState] is OPEN. *)
Theorem frames_only_to_open_sockets open s e s' out :
  handle open s e = Done s' out ->
  (forall f, f ∈ out -> open f.1 = true) /\ length out <= 2.
Proof.
  intros Hstep.
  destruct (handle_frames open s e s' out Hstep) as (o1 & p1 & o2 & p2 & ->).
  split.
  - intros f. rewrite elem_of_app, !safeSend_elem. intros [(_ & _ & ?)|(_ & _ & ?)]; done.
  - rewrite length_app. unfold safeSend.
    destruct o1 as [x1|], o2 as [x2|]; repeat case_match; simpl; lia.
Qed.

(** ** The ways through the listeners *)

Lemma Done_inj s1 s2 (o1 o2 : list frame) :
  Done s1 o1 = Done s2 o2 -> s1 = s2 /\ o1 = o2.
Proof. by intros [= -> ->]. Qed.

Lemma onMessage_cases open random now s ws data s' out :
  onMessage open random now s ws data = Done s' out ->
  (data = None /\ s' = s
   /\ out = safeSend open (Some ws) (Error "Invalid JSON"))
  \/ exists msg, data = Some msg /\ msg <> JNull
       /\ dispatch open random now s ws msg = Done s' out.
Proof.
  unfold onMessage. destruct data as [msg|].
  - intros Hd. right. exists msg. destruct msg; done.
  - intros [<- <-]%Done_inj. by left.
Qed.

Lemma dispatch_cases open random now s ws msg s' out :
  dispatch open random now s ws msg = Done s' out ->
  (get_field msg "type" = Some (JStr "create_game")
   /\ createGame open random now s ws = (s', out))
  \/ (get_field msg "type" = Some (JStr "join_game")
      /\ truthy (get_field msg "gameId") = false /\ s' = s
      /\ out = safeSend open (Some ws) (Error "Missing gameId"))
  \/ (get_field msg "type" = Some (JStr "join_game")
      /\ truthy (get_field msg "gameId") = true
      /\ joinGame open s ws (get_field msg "gameId") = (s', out))
  \/ (get_field msg "type" = Some (JStr "make_move")
      /\ handleMove open s ws msg = (s', out))
  \/ (get_field msg "type" <> Some (JStr "create_game")
      /\ get_field msg "type" <> Some (JStr "join_game")
      /\ get_field msg "type" <> Some (JStr "make_move")
      /\ s' = s
      /\ out = safeSend open (Some ws) (Error "Unknown message type")).
Proof.
  unfold dispatch, returned.
  destruct (get_field msg "type") as [[| | |t| |]|];
    try (intros [<- <-]%Done_inj; do 4 right; done).
  destruct (String.eqb t "create_game") eqn:H1.
  { apply String.eqb_eq in H1 as ->. intros [<- <-]%Done_inj. left.
    split; [done|]. apply surjective_pairing. }
  destruct (String.eqb t "join_game") eqn:H2.
  { apply String.eqb_eq in H2 as ->.
    destruct (truthy (get_field msg "gameId")); simpl.
    - intros [<- <-]%Done_inj. do 2 right. left. do 2 (split; [done|]).
      apply surjective_pairing.
    - intros [<- <-]%Done_inj. right. left. done. }
  destruct (String.eqb t "make_move") eqn:H3.
  { apply String.eqb_eq in H3 as ->. intros [<- <-]%Done_inj. do 3 right. left.
    split; [done|]. apply surjective_pairing. }
  apply String.eqb_neq in H1, H2, H3.
  intros [<- <-]%Done_inj. do 4 right. repeat split; congruence.
Qed.

Lemma handleMove_cases open s ws msg :
  (exists t, handleMove open s ws msg = (s, safeSend open (Some ws) (Error t)))
  \/ exists id g c (pos : chess) (m : lastmove),
       get_field msg "gameId" = Some (JStr id)
       /\ games s !! id = Some g
       /\ chessRole s !! ws = Some {| gameId := id; role_color := c |}
       /\ c = turn (game_chess g)
       /\ move (game_chess g) (request_of msg) = Moved pos m
       /\ handleMove open s ws msg =
            ({| games := <[id := {| game_chess := pos;
                                    players := players g;
                                    createdAt := createdAt g |}]> (games s);
                chessRole := chessRole s |},
             (safeSend open (w (players g))
                (MoveMade id (fen pos) m (turn pos)
                   (isGameOver pos) (isCheckmate pos) (isDraw pos))
              ++ safeSend open (b (players g))
                   (MoveMade id (fen pos) m (turn pos)
                      (isGameOver pos) (isCheckmate pos) (isDraw pos)))%list).
Proof.
  destruct (games_get (games s) (get_field msg "gameId")) as [[id g]|] eqn:Hget.
  2:{ left. eexists. unfold handleMove. by rewrite Hget. }
  apply games_get_Some in Hget as [Hid Hg].
  destruct (chessRole s !! ws) as [[id' c]|] eqn:Hr.
  2:{ left. eexists. apply (handleMove_stranger open s ws msg id g Hid Hg).
      intros c. by rewrite Hr. }
  destruct (decide (id' = id)) as [->|Hne].
  2:{ left. eexists. apply (handleMove_stranger open s ws msg id g Hid Hg).
      intros c'. rewrite Hr. congruence. }
  rewrite (handleMove_bound open s ws msg id g c Hid Hg Hr).
  case_bool_decide as Hturn; [|left; by eexists].
  destruct (move (game_chess g) (request_of msg)) as [pos m| |] eqn:Hmove;
    [|left; by eexists..].
  right. by exists id, g, c, pos, m.
Qed.

Lemma safeSend_error open ws t f :
  f ∈ safeSend open (Some ws) (Error t) ->
  f = (ws, Error t) /\ safeSend open (Some ws) (Error t) = [f].
Proof.
  intros Hin. pose proof Hin as Hin'.
  apply safeSend_elem in Hin' as (Hx & Hp & Hopen).
  destruct f as [x q]. simpl in *. simplify_eq.
  split; [done|]. by apply safeSend_open.
Qed.

(** ** Errors *)

(** X4: when an [error] frame leaves the server, the event was a message of
    the socket that receives it, the frame is the only one written, and
    the state is as it was before. *)
Theorem error_reply_is_alone open s e s' out x t :
  handle open s e = Done s' out ->
  (x, Error t) ∈ out ->
  s' = s /\ out = [(x, Error t)]
  /\ exists data random now, e = Message x data random now.
Proof.
  destruct e as [y|y data random now|y]; cbn [handle];
    unfold onConnection, onClose.
  - intros [<- <-]%Done_inj Hin. by apply safeSend_elem in Hin as (_ & [=] & _).
  - intros Hstep Hin.
    assert (s' = s /\ out = [(x, Error t)] /\ x = y) as (-> & -> & ->);
      [|do 2 (split; [done|]); by eexists _, _, _].
    apply onMessage_cases in Hstep
      as [(-> & -> & ->)|(msg & -> & _ & Hd)].
    { apply safeSend_error in Hin as [[= -> ->] ->]. done. }
    apply dispatch_cases in Hd
      as [[_ Hc]|[(_ & _ & -> & ->)|[(_ & _ & Hj)|[[_ Hm]|(_ & _ & _ & -> & ->)]]]].
    + apply (f_equal snd) in Hc. rewrite createGame_frames in Hc.
      cbn [snd] in Hc. subst out.
      by apply safeSend_elem in Hin as (_ & [=] & _).
    + apply safeSend_error in Hin as [[= -> ->] ->]. done.
    + destruct (joinGame_cases open s y (get_field msg "gameId"))
        as [[_ Hk]|(id & g & _ & _ & [[_ Hk]|[(_ & _ & Hk)|(_ & _ & Hk)]])];
        rewrite Hk in Hj.
      * apply pair_equal_spec in Hj as [<- <-].
        apply safeSend_error in Hin as [[= -> ->] ->]. done.
      * apply (f_equal snd) in Hj. rewrite seat_joiner_frames in Hj.
        cbn [snd] in Hj. subst out.
        by apply elem_of_app in Hin
          as [(_ & [=] & _)%safeSend_elem|(_ & [=] & _)%safeSend_elem].
      * apply (f_equal snd) in Hj. rewrite seat_joiner_frames in Hj.
        cbn [snd] in Hj. subst out.
        by apply elem_of_app in Hin
          as [(_ & [=] & _)%safeSend_elem|(_ & [=] & _)%safeSend_elem].
      * apply pair_equal_spec in Hj as [<- <-].
        apply safeSend_error in Hin as [[= -> ->] ->]. done.
    + destruct (handleMove_cases open s y msg)
        as [[t' Hk]|(id & g & c & pos & m & _ & _ & _ & _ & _ & Hk)];
        rewrite Hk in Hm; apply pair_equal_spec in Hm as [<- <-].
      * apply safeSend_error in Hin as [[= -> ->] ->]. done.
      * by apply elem_of_app in Hin
          as [(_ & [=] & _)%safeSend_elem|(_ & [=] & _)%safeSend_elem].
    + apply safeSend_error in Hin as [[= -> ->] ->]. done.
  - intros [<- <-]%Done_inj Hin. by apply elem_of_nil in Hin.
Qed.

(** ** Requests that name no stored game *)

(** X5: a [join_game] whose [gameId] is missing or falsy is answered with
    "Missing gameId"; one whose [gameId] is truthy but finds no stored game
    is answered with "Game not found", which is the case of every [gameId]
    that is not a string.  The state is unchanged. *)
Theorem join_without_game open random now s ws msg :
  get_field msg "type" = Some (JStr "join_game") ->
  (truthy (get_field msg "gameId") = false ->
   onMessage open random now s ws (Some msg)
   = Done s (safeSend open (Some ws) (Error "Missing gameId")))
  /\ (truthy (get_field msg "gameId") = true ->
      games_get (games s) (get_field msg "gameId") = None ->
      onMessage open random now s ws (Some msg)
      = Done s (safeSend open (Some ws) (Error "Game not found")))
  /\ (forall v, get_field msg "gameId" = Some v ->
        (forall id, v <> JStr id) ->
        games_get (games s) (get_field msg "gameId") = None).
Proof.
  intros Ht.
  assert (onMessage open random now s ws (Some msg)
          = dispatch open random now s ws msg) as ->.
  { destruct msg; done. }
  unfold dispatch. rewrite Ht. simpl.
  split; [by intros ->|]. split.
  - intros -> Hget. simpl. unfold joinGame. by rewrite Hget.
  - intros v -> Hv. destruct v; try done. by destruct (Hv s0).
Qed.

(** X6: a [make_move] that names no stored game is answered with "Game not
    found" before the sender's binding is looked at, and changes nothing. *)
Theorem move_without_game open random now s ws msg :
  get_field msg "type" = Some (JStr "make_move") ->
  games_get (games s) (get_field msg "gameId") = None ->
  onMessage open random now s ws (Some msg)
  = Done s (safeSend open (Some ws) (Error "Game not found")).
Proof.
  intros Ht Hget. rewrite onMessage_make_move; [|done].
  unfold handleMove. by rewrite Hget.
Qed.

(** ** What a step can do to the state *)

Lemma slot_set_ne c c0 v (q : seats) :
  c <> c0 -> slot c (set_slot c0 v q) = slot c q.
Proof. by destruct c, c0. Qed.

Lemma step_state open s e s' out :
  handle open s e = Done s' out ->
  s' = s
  \/ (exists ws, e = Close ws /\ s' = cleanupConnection s ws)
  \/ (exists ws msg random now,
        e = Message ws (Some msg) random now
        /\ get_field msg "type" = Some (JStr "create_game")
        /\ s' = (createGame open random now s ws).1)
  \/ (exists ws data random now key,
        e = Message ws data random now
        /\ s' = (joinGame open s ws key).1)
  \/ (exists ws data random now msg,
        e = Message ws data random now
        /\ s' = (handleMove open s ws msg).1).
Proof.
  destruct e as [y|y data random now|y]; cbn [handle];
    unfold onConnection, onClose.
  - intros [<- _]%Done_inj. by left.
  - intros Hstep.
    apply onMessage_cases in Hstep as [(_ & -> & _)|(msg & -> & _ & Hd)];
      [by left|].
    apply dispatch_cases in Hd
      as [[Ht Hc]|[(_ & _ & -> & _)|[(_ & _ & Hj)|[[_ Hm]|(_ & _ & _ & -> & _)]]]];
      try by left.
    + do 2 right. left. exists y, msg, random, now. by rewrite Hc.
    + do 3 right. left. eexists y, _, random, now, _. by rewrite Hj.
    + do 4 right. eexists y, _, random, now, msg. by rewrite Hm.
  - intros [<- _]%Done_inj. right. left. by exists y.
Qed.

Lemma cleanup_chessRole s ws :
  chessRole (cleanupConnection s ws) = chessRole s.
Proof. unfold cleanupConnection. by repeat case_match. Qed.

Lemma joinGame_chessRole open s ws key :
  chessRole (joinGame open s ws key).1 = chessRole s
  \/ exists id c, chessRole (joinGame open s ws key).1
                  = <[ws := {| gameId := id; role_color := c |}]> (chessRole s).
Proof.
  destruct (joinGame_cases open s ws key)
    as [[_ ->]|(id & g & _ & _ & [[_ ->]|[(_ & _ & ->)|(_ & _ & ->)]])];
    [by left|right|right|by left]; by eexists _, _.
Qed.

(** What [joinGame] does to one entry of the registry. *)
Lemma joinGame_games open s ws key id :
  games (joinGame open s ws key).1 !! id = games s !! id
  \/ exists g c, games s !! id = Some g
       /\ slot c (players g) = None
       /\ games (joinGame open s ws key).1 !! id
          = Some {| game_chess := game_chess g;
                    players := set_slot c (Some ws) (players g);
                    createdAt := createdAt g |}.
Proof.
  destruct (joinGame_cases open s ws key)
    as [[_ ->]|(id' & g & _ & Hg & [[Hb ->]|[(_ & Hw & ->)|(_ & _ & ->)]])];
    [by left| | |by left].
  all: unfold seat_joiner; cbn [fst games].
  all: destruct (decide (id' = id)) as [->|Hne];
    [|left; by rewrite lookup_insert_ne].
  all: right; eexists g, _; rewrite lookup_insert_eq; by repeat split.
Qed.

(** What [cleanupConnection] does to one entry of the registry. *)
Lemma cleanup_games s ws id :
  games (cleanupConnection s ws) !! id = games s !! id
  \/ exists g c, games s !! id = Some g
       /\ chessRole s !! ws = Some {| gameId := id; role_color := c |}
       /\ let q := if bool_decide (slot c (players g) = Some ws)
                   then set_slot c None (players g) else players g in
          games (cleanupConnection s ws) !! id
          = if vacant q then None
            else Some {| game_chess := game_chess g; players := q;
                         createdAt := createdAt g |}.
Proof.
  unfold cleanupConnection.
  destruct (chessRole s !! ws) as [[id' c]|] eqn:Hr; [|by left].
  cbn [gameId role_color].
  destruct (games s !! id') as [g|] eqn:Hg; [|by left].
  cbn [games].
  destruct (decide (id' = id)) as [->|Hne].
  - right. exists g, c. do 2 (split; [done|]). cbn zeta.
    destruct (vacant _); [by rewrite lookup_delete_eq|by rewrite lookup_insert_eq].
  - left. destruct (vacant _);
      [by rewrite lookup_delete_ne|by rewrite lookup_insert_ne].
Qed.

(** ** What [handleMove] leaves alone *)

(** X7: [handleMove] never touches a binding, never adds or removes a game,
    and leaves the seats and the creation time of every game as they were. *)
Theorem handleMove_keeps_sessions open s ws msg :
  chessRole (handleMove open s ws msg).1 = chessRole s
  /\ (forall id, is_Some (games (handleMove open s ws msg).1 !! id)
                 <-> is_Some (games s !! id))
  /\ (forall id g', games (handleMove open s ws msg).1 !! id = Some g' ->
        exists g, games s !! id = Some g
                  /\ players g' = players g /\ createdAt g' = createdAt g).
Proof.
  split; [apply handleMove_chessRole|]. split.
  - intros id.
    destruct (handleMove_games open s ws msg id) as [->|(g & pos & -> & ->)];
      [done|]. split; by eexists.
  - intros id g' Hg'.
    destruct (handleMove_games open s ws msg id) as [Heq|(g & pos & Hg & Heq)];
      rewrite Heq in Hg'.
    + by exists g'.
    + exists g. by simplify_eq.
Qed.

(** ** Bindings *)

(** X10: no event removes a role binding: a socket that has one keeps one,
    also across its own close event. *)
Theorem bindings_are_never_dropped open s e s' out ws :
  handle open s e = Done s' out ->
  is_Some (chessRole s !! ws) ->
  is_Some (chessRole s' !! ws).
Proof.
  intros Hstep Hws.
  destruct (step_state open s e s' out Hstep)
    as [->|[(y & _ & ->)|[(y & msg & random & now & _ & _ & ->)
       |[(y & data & random & now & key & _ & ->)
        |(y & data & random & now & msg & _ & ->)]]]].
  - done.
  - by rewrite cleanup_chessRole.
  - unfold createGame. cbn [fst chessRole].
    rewrite lookup_insert_is_Some'. by right.
  - destruct (joinGame_chessRole open s y key) as [->|(id & c & ->)]; [done|].
    rewrite lookup_insert_is_Some'. by right.
  - by rewrite handleMove_chessRole.
Qed.

Lemma bound_seats_step open s e s' out :
  (forall id g c ws, games s !! id = Some g -> slot c (players g) = Some ws ->
                     is_Some (chessRole s !! ws)) ->
  handle open s e = Done s' out ->
  forall id g c ws, games s' !! id = Some g -> slot c (players g) = Some ws ->
                    is_Some (chessRole s' !! ws).
Proof.
  intros Hinv Hstep id g c ws Hg Hslot.
  destruct (step_state open s e s' out Hstep)
    as [->|[(y & _ & ->)|[(y & msg & random & now & _ & _ & ->)
       |[(y & data & random & now & key & _ & ->)
        |(y & data & random & now & msg & _ & ->)]]]].
  - by eapply Hinv.
  - rewrite cleanup_chessRole.
    destruct (cleanup_games s y id) as [Heq|(g0 & c0 & Hg0 & _ & Heq)];
      rewrite Heq in Hg; [by eapply Hinv|].
    destruct (vacant _); [done|]. simplify_eq. cbn [players] in Hslot.
    case_bool_decide; [|by eapply Hinv].
    destruct (decide (c = c0)) as [->|Hne];
      [by rewrite slot_set_same in Hslot|].
    rewrite slot_set_ne in Hslot; [|done]. by eapply Hinv.
  - revert Hg. unfold createGame. cbn [fst games chessRole].
    rewrite lookup_insert_is_Some'.
    destruct (decide (generateGameId random = id)) as [->|Hne].
    + rewrite lookup_insert_eq. intros [= <-].
      destruct c; simpl in Hslot; simplify_eq. by left.
    + rewrite lookup_insert_ne; [|done]. intros Hg. right. by eapply Hinv.
  - revert Hg.
    destruct (joinGame_cases open s y key)
      as [[_ ->]|(id1 & g1 & _ & Hg1 & [[_ ->]|[(_ & _ & ->)|(_ & _ & ->)]])];
      try (intros Hg; by eapply Hinv).
    all: unfold seat_joiner; cbn [fst games chessRole]; intros Hg.
    all: rewrite lookup_insert_is_Some'.
    all: destruct (decide (y = ws)) as [->|Hy]; [by left|right].
    all: destruct (decide (id1 = id)) as [->|Hne];
      [|rewrite lookup_insert_ne in Hg by done; by eapply Hinv].
    all: rewrite lookup_insert_eq in Hg; simplify_eq; cbn [players] in Hslot.
    all: match type of Hslot with
         | slot _ (set_slot ?c1 _ _) = _ =>
             destruct (decide (c = c1)) as [->|Hc];
             [rewrite slot_set_same in Hslot; congruence
             |rewrite slot_set_ne in Hslot by done; by eapply Hinv]
         end.
  - rewrite handleMove_chessRole.
    destruct (handleMove_games open s y msg id) as [Heq|(g0 & pos & Hg0 & Heq)];
      rewrite Heq in Hg; [by eapply Hinv|].
    simplify_eq. cbn [players] in Hslot. by eapply Hinv.
Qed.

(** X11: in every reachable state a socket that sits in a seat of a stored
    game has a role binding. *)
Theorem seated_socket_is_bound s id g c ws :
  reachable s ->
  games s !! id = Some g ->
  slot c (players g) = Some ws ->
  is_Some (chessRole s !! ws).
Proof.
  intros Hreach. revert id g c ws.
  induction Hreach as [|s e open s' out _ IH Hstep].
  - intros id g c ws. unfold initial. cbn [games]. by rewrite lookup_empty.
  - by eapply bound_seats_step.
Qed.

(** ** Where sessions come from *)

(** X12: an id enters the registry only through a [create_game] message,
    as the id that call generated, with the sender in the white seat and
    the black seat empty. *)
Theorem sessions_come_from_create_game open s e s' out id :
  handle open s e = Done s' out ->
  games s !! id = None ->
  is_Some (games s' !! id) ->
  exists ws msg random now,
    e = Message ws (Some msg) random now
    /\ get_field msg "type" = Some (JStr "create_game")
    /\ id = generateGameId random
    /\ games s' !! id = Some {| game_chess := new_Chess;
                                players := {| w := Some ws; b := None |};
                                createdAt := now |}.
Proof.
  intros Hstep Hnone Hsome.
  destruct (step_state open s e s' out Hstep)
    as [->|[(y & _ & ->)|[(y & msg & random & now & -> & Ht & ->)
       |[(y & data & random & now & key & _ & ->)
        |(y & data & random & now & msg & _ & ->)]]]].
  - rewrite Hnone in Hsome. by destruct Hsome.
  - destruct (cleanup_games s y id) as [Heq|(g0 & c0 & Hg0 & _)];
      [|congruence].
    rewrite Heq, Hnone in Hsome. by destruct Hsome.
  - revert Hsome. unfold createGame. cbn [fst games].
    destruct (decide (generateGameId random = id)) as [<-|Hne].
    + intros _. exists y, msg, random, now. by rewrite lookup_insert_eq.
    + rewrite lookup_insert_ne, Hnone; [|done]. by intros [? ?].
  - destruct (joinGame_games open s y key id) as [Heq|(g0 & c0 & Hg0 & _)];
      [|congruence].
    rewrite Heq, Hnone in Hsome. by destruct Hsome.
  - destruct (handleMove_games open s y msg id) as [Heq|(g0 & pos & Hg0 & _)];
      [|congruence].
    rewrite Heq, Hnone in Hsome. by destruct Hsome.
Qed.

(** ** Seats *)

(** X14: [joinGame] never displaces a seated socket: whatever game is
    joined, every occupied seat keeps its occupant, and position and
    creation time stay. *)
Theorem joinGame_keeps_occupants open s ws key id g c x :
  games s !! id = Some g ->
  slot c (players g) = Some x ->
  exists g', games (joinGame open s ws key).1 !! id = Some g'
             /\ slot c (players g') = Some x
             /\ game_chess g' = game_chess g
             /\ createdAt g' = createdAt g.
Proof.
  intros Hg Hslot.
  destruct (joinGame_games open s ws key id) as [->|(g0 & c0 & Hg0 & Hfree & ->)].
  - by exists g.
  - simplify_eq. eexists. split; [done|]. cbn [players game_chess createdAt].
    split; [|done]. rewrite slot_set_ne; [done|]. congruence.
Qed.

(** X15: a close event never unseats another socket, and never deletes a
    game in which another socket is seated. *)
Theorem cleanup_keeps_other_sockets s ws id g c x :
  games s !! id = Some g ->
  slot c (players g) = Some x ->
  x <> ws ->
  exists g', games (cleanupConnection s ws) !! id = Some g'
             /\ slot c (players g') = Some x
             /\ game_chess g' = game_chess g
             /\ createdAt g' = createdAt g.
Proof.
  intros Hg Hslot Hne.
  destruct (cleanup_games s ws id) as [->|(g0 & c0 & Hg0 & _ & Heq)].
  - by exists g.
  - simplify_eq. cbn zeta in Heq. rewrite Heq. clear Heq.
    set (q := if bool_decide _ then _ else _).
    assert (slot c q = Some x) as Hq.
    { subst q. case_bool_decide as Hd; [|done].
      rewrite slot_set_ne; [done|]. intros ->. congruence. }
    assert (vacant q = false) as ->.
    { destruct q as [[?|] [?|]], c; simpl in *; done. }
    eexists. by split.
Qed.

(** ** Close events *)

Lemma server_eq s1 s2 :
  games s1 = games s2 -> chessRole s1 = chessRole s2 -> s1 = s2.
Proof. destruct s1, s2. simpl. by intros -> ->. Qed.

Lemma cleanup_lookup s ws id :
  games (cleanupConnection s ws) !! id =
    match chessRole s !! ws with
    | Some r =>
        if decide (gameId r = id) then games s !! id ≫= leave ws (role_color r)
        else games s !! id
    | None => games s !! id
    end.
Proof.
  unfold cleanupConnection.
  destruct (chessRole s !! ws) as [[id' c]|] eqn:Hr; [|done].
  cbn [gameId role_color].
  destruct (games s !! id') as [g|] eqn:Hg; cbn [games].
  - destruct (decide (id' = id)) as [->|Hne].
    + rewrite Hg. simpl. unfold leave.
      destruct (vacant _); [by rewrite lookup_delete_eq|by rewrite lookup_insert_eq].
    + destruct (vacant _);
        [by rewrite lookup_delete_ne|by rewrite lookup_insert_ne].
  - destruct (decide (id' = id)) as [->|Hne]; [by rewrite Hg|done].
Qed.

Lemma leave_comm x cx y cy g :
  leave x cx g ≫= leave y cy = leave y cy g ≫= leave x cx.
Proof.
  destruct g as [pos [[a|] [b0|]] t], cx, cy; unfold leave; simpl;
    repeat (case_bool_decide; simpl); simplify_eq; try done.
Qed.

(** X16: the close events of two sockets can be handled in either order:
    the resulting state is the same. *)
Theorem close_events_commute s x y :
  cleanupConnection (cleanupConnection s x) y
  = cleanupConnection (cleanupConnection s y) x.
Proof.
  apply server_eq; [|by rewrite !cleanup_chessRole].
  apply map_eq. intros id.
  rewrite !cleanup_lookup, !cleanup_chessRole.
  destruct (chessRole s !! x) as [[idx cx]|], (chessRole s !! y) as [[idy cy]|];
    cbn [gameId role_color]; repeat case_decide; try done.
  destruct (games s !! id) as [g|]; [|done]. simpl. apply leave_comm.
Qed.

(** ** Create, join, leave *)

(** X17: when the creator closes right after [create_game], the game is
    deleted again; if its id was new, the registry is what it was before. *)
Theorem creator_leaves_alone open random now s ws :
  games (cleanupConnection (createGame open random now s ws).1 ws)
  = delete (generateGameId random) (games s)
  /\ (games s !! generateGameId random = None ->
      games (cleanupConnection (createGame open random now s ws).1 ws) = games s).
Proof.
  assert (games (cleanupConnection (createGame open random now s ws).1 ws)
          = delete (generateGameId random) (games s)) as Heq.
  { unfold createGame, cleanupConnection. cbn [fst chessRole games].
    rewrite lookup_insert_eq. cbn [gameId role_color].
    rewrite lookup_insert_eq. cbn [players slot].
    rewrite bool_decide_eq_true_2; [|done]. simpl.
    by rewrite delete_insert_eq. }
  split; [done|]. intros Hfresh. rewrite Heq. by apply delete_id.
Qed.

(** X18: when a socket is seated by [join_game] in a game that had a
    player, and then closes, the registry is what it was before the join. *)
Theorem joiner_leaves open s ws id g :
  games s !! id = Some g ->
  vacant (players g) = false ->
  b (players g) = None \/ w (players g) = None ->
  games (cleanupConnection (joinGame open s ws (Some (JStr id))).1 ws) = games s.
Proof.
  intros Hg Hv Hfree.
  destruct g as [pos [a b0] t]. simpl in *.
  unfold joinGame. rewrite games_get_str, Hg. simpl.
  destruct b0 as [y|].
  - destruct Hfree as [?| ->]; [done|].
    unfold seat_joiner, cleanupConnection. cbn [fst chessRole games].
    rewrite lookup_insert_eq. cbn [gameId role_color].
    rewrite lookup_insert_eq. simpl.
    rewrite bool_decide_eq_true_2; [|done]. simpl.
    rewrite insert_insert_eq. by apply insert_id.
  - destruct a as [x|]; [|done].
    unfold seat_joiner, cleanupConnection. cbn [fst chessRole games].
    rewrite lookup_insert_eq. cbn [gameId role_color].
    rewrite lookup_insert_eq. simpl.
    rewrite bool_decide_eq_true_2; [|done]. simpl.
    rewrite insert_insert_eq. by apply insert_id.
Qed.

(** X19: after [create_game] and one [join_game] both seats are taken, and
    the next [join_game] for that id is answered with "Game already has two
    players" without any change. *)
Theorem session_takes_one_joiner open1 open2 open3 random now s x y z :
  let id := generateGameId random in
  let s1 := (createGame open1 random now s x).1 in
  let s2 := (joinGame open2 s1 y (Some (JStr id))).1 in
  games s2 !! id = Some {| game_chess := new_Chess;
                           players := {| w := Some x; b := Some y |};
                           createdAt := now |}
  /\ joinGame open3 s2 z (Some (JStr id))
     = (s2, safeSend open3 (Some z) (Error "Game already has two players")).
Proof.
  intros id s1 s2.
  assert (games s2 !! id = Some {| game_chess := new_Chess;
                                   players := {| w := Some x; b := Some y |};
                                   createdAt := now |}) as Hg.
  { subst s2 s1. unfold joinGame, createGame. cbn [fst games].
    rewrite games_get_str. fold id. rewrite lookup_insert_eq. simpl.
    by rewrite lookup_insert_eq. }
  split; [done|]. unfold joinGame. rewrite games_get_str, Hg. done.
Qed.

(** ** Turns *)

(** X9: after a played move that passes the turn, a further [make_move] of
    the same socket for that game is answered with "Not your turn" and
    changes nothing. *)
Theorem no_second_move_in_a_row open open' s ws msg msg' id g c
    (pos : chess) (m : lastmove) :
  get_field msg "gameId" = Some (JStr id) ->
  get_field msg' "gameId" = Some (JStr id) ->
  games s !! id = Some g ->
  chessRole s !! ws = Some {| gameId := id; role_color := c |} ->
  c = turn (game_chess g) ->
  move (game_chess g) (request_of msg) = Moved pos m ->
  turn pos <> c ->
  handleMove open' (handleMove open s ws msg).1 ws msg'
  = ((handleMove open s ws msg).1,
     safeSend open' (Some ws) (Error "Not your turn")).
Proof.
  intros Hid Hid' Hg Hr Hturn Hmove Hflip.
  rewrite (handleMove_bound open s ws msg id g c Hid Hg Hr).
  rewrite bool_decide_eq_true_2; [|done]. rewrite Hmove. cbn [fst].
  erewrite (handleMove_bound open' _ ws msg' id _ c Hid');
    [|cbn [games]; by rewrite lookup_insert_eq|done].
  cbn [game_chess]. rewrite bool_decide_eq_false_2; [done|congruence].
Qed.

(** ** The ids in the registry *)

(** X13: when every draw lies in [0, 1), each id in the registry has six
    symbols of [chars], none of them a look-alike. *)
Theorem stored_ids_are_well_formed s id g :
  reachable_fair s ->
  games s !! id = Some g ->
  String.length id = 6
  /\ Forall (fun a => a ∈ alphabet /\ a ∉ lookalikes)
       (String.list_ascii_of_string id).
Proof.
  intros Hreach. revert id g.
  induction Hreach as [|s e open s' out _ IH Hfair Hstep]; intros id g Hg.
  { revert Hg. unfold initial. cbn [games]. by rewrite lookup_empty. }
  destruct (step_state open s e s' out Hstep)
    as [->|[(y & _ & ->)|[(y & msg & random & now & -> & Ht & ->)
       |[(y & data & random & now & key & _ & ->)
        |(y & data & random & now & msg & _ & ->)]]]].
  - by eapply IH.
  - destruct (cleanup_games s y id) as [Heq|(g0 & c0 & Hg0 & _)];
      [rewrite Heq in Hg|]; by eapply IH.
  - revert Hg. unfold createGame. cbn [fst games].
    destruct (decide (generateGameId random = id)) as [<-|Hne].
    + intros _. pose proof (Hfair _ _ _ _ eq_refl) as Hr.
      split; [by apply generateGameId_length|by apply generateGameId_symbols].
    + rewrite lookup_insert_ne; [|done]. apply IH.
  - destruct (joinGame_games open s y key id) as [Heq|(g0 & c0 & Hg0 & _)];
      [rewrite Heq in Hg|]; by eapply IH.
  - destruct (handleMove_games open s y msg id) as [Heq|(g0 & pos & Hg0 & _)];
      [rewrite Heq in Hg|]; by eapply IH.
Qed.

(** ** Positions *)

(** X8: the position stored under an id changes only in two ways: a
    [make_move] for that id by a socket bound to it under the colour to
    move, which the engine played and whose result is stored; or a
    [create_game] that drew the same id and stored a new game. *)
Theorem position_changes_only_by_a_played_move open s e s' out id g g' :
  handle open s e = Done s' out ->
  games s !! id = Some g ->
  games s' !! id = Some g' ->
  game_chess g' <> game_chess g ->
  (exists ws msg random now c (m : lastmove),
     e = Message ws (Some msg) random now
     /\ get_field msg "type" = Some (JStr "make_move")
     /\ get_field msg "gameId" = Some (JStr id)
     /\ chessRole s !! ws = Some {| gameId := id; role_color := c |}
     /\ c = turn (game_chess g)
     /\ move (game_chess g) (request_of msg) = Moved (game_chess g') m)
  \/ (exists ws msg random now,
        e = Message ws (Some msg) random now
        /\ get_field msg "type" = Some (JStr "create_game")
        /\ id = generateGameId random
        /\ game_chess g' = new_Chess).
Proof.
  intros Hstep Hg Hg' Hne.
  destruct e as [y|y data random now|y]; cbn [handle] in Hstep;
    unfold onConnection, onClose in Hstep.
  - apply Done_inj in Hstep as [<- _]. congruence.
  - apply onMessage_cases in Hstep as [(_ & -> & _)|(msg & -> & _ & Hd)];
      [congruence|].
    apply dispatch_cases in Hd
      as [[Ht Hc]|[(_ & _ & -> & _)|[(_ & _ & Hj)|[[Ht Hm]|(_ & _ & _ & -> & _)]]]];
      try congruence.
    + right. exists y, msg, random, now. do 2 (split; [done|]).
      apply (f_equal fst) in Hc. cbn [fst] in Hc. subst s'.
      revert Hg'. unfold createGame. cbn [fst games].
      destruct (decide (generateGameId random = id)) as [<-|Hid].
      * rewrite lookup_insert_eq. by intros [= <-].
      * rewrite lookup_insert_ne; [|done]. congruence.
    + apply (f_equal fst) in Hj. cbn [fst] in Hj. subst s'.
      destruct (joinGame_games open s y (get_field msg "gameId") id)
        as [Heq|(g0 & c0 & Hg0 & _ & Heq)]; rewrite Heq in Hg'.
      * congruence.
      * simplify_eq; by try destruct Hne.
    + left.
      destruct (handleMove_cases open s y msg)
        as [[t Hk]|(id1 & g1 & c & pos & m & Hid & Hg1 & Hr & Hturn & Hmove & Hk)];
        rewrite Hk in Hm; apply pair_equal_spec in Hm as [<- _];
        [congruence|].
      cbn [games] in Hg'.
      destruct (decide (id1 = id)) as [->|Hid1];
        [|rewrite lookup_insert_ne in Hg' by done; congruence].
      rewrite lookup_insert_eq in Hg'. simplify_eq. cbn [game_chess].
      by exists y, msg, random, now, (turn (game_chess g)), m.
  - apply Done_inj in Hstep as [<- _].
    destruct (cleanup_games s y id) as [Heq|(g0 & c0 & Hg0 & _ & Heq)];
      rewrite Heq in Hg'; [congruence|].
    cbn zeta in Hg'. destruct (vacant _); [done|].
    simplify_eq; by try destruct Hne.
Qed.

End Handlers.

(** * The added properties on the ply-counter engine *)

Lemma fair_draws_A : fair draws_A.
Proof. intros k. split; vm_compute; [discriminate|reflexivity]. Qed.

Lemma fair_draws_B : fair draws_B.
Proof. intros k. split; vm_compute; [discriminate|reflexivity]. Qed.

Lemma reachable_fair_lobby : reachable_fair lobby.
Proof.
  apply (reachable_fair_step initial (Message 1 (Some create_msg) draws_A 10)
           always_open lobby
           (createGame always_open draws_A 10 initial 1).2);
    [apply reachable_fair_initial| |reflexivity].
  intros ws data random now [= _ _ <- _]. apply fair_draws_A.
Qed.

(** The id drawn from [draws_A]. *)
Lemma generateGameId_format_example :
  String.length (generateGameId draws_A) = 6
  /\ Forall (fun a => a ∈ alphabet /\ a ∉ lookalikes)
       (String.list_ascii_of_string (generateGameId draws_A)).
Proof.
  apply (generateGameId_format draws_A).
  intros k. split; vm_compute; [discriminate|reflexivity].
Defined.

(** [draws_A] and [draws_B] differ in their index draws, hence in the id. *)
Lemma generateGameId_collision_example :
  generateGameId draws_A = generateGameId draws_B <-> picks draws_A = picks draws_B.
Proof.
  apply (generateGameId_collision draws_A draws_B).
  - intros k. split; vm_compute; [discriminate|reflexivity].
  - intros k. split; vm_compute; [discriminate|reflexivity].
Defined.

(** Socket 2 joins while socket 1 is no longer writable. *)
Lemma frames_only_to_open_sockets_example :
  (forall f, f ∈ (joinGame only_socket_2 lobby 2 (Some (JStr "AAAAAA"))).2 ->
             only_socket_2 f.1 = true)
  /\ length (joinGame only_socket_2 lobby 2 (Some (JStr "AAAAAA"))).2 <= 2.
Proof.
  apply (frames_only_to_open_sockets (E:=ply_engine) only_socket_2 lobby
           (Message 2 (Some (join_msg "AAAAAA")) draws_A 11)
           (joinGame only_socket_2 lobby 2 (Some (JStr "AAAAAA"))).1).
  reflexivity.
Defined.

(** Black moves out of turn. *)
Lemma error_reply_is_alone_example :
  paired = paired
  /\ (handleMove always_open paired 2 (move_msg "AAAAAA" "e7" "e5")).2
     = [(2, Error (E:=ply_engine) "Not your turn")]
  /\ exists data random now,
       Message 2 (Some (move_msg "AAAAAA" "e7" "e5")) draws_A 12
       = Message 2 data random now.
Proof.
  apply (error_reply_is_alone (E:=ply_engine) always_open paired
           (Message 2 (Some (move_msg "AAAAAA" "e7" "e5")) draws_A 12)
           paired
           (handleMove always_open paired 2 (move_msg "AAAAAA" "e7" "e5")).2
           2 "Not your turn").
  - vm_compute. reflexivity.
  - vm_compute. apply list_elem_of_here.
Defined.

(** A [join_game] without a [gameId]. *)
Lemma join_without_game_example :
  onMessage (E:=ply_engine) always_open draws_A 10 initial 1
    (Some (JObj [("type", JStr "join_game")]))
  = Done initial [(1, Error "Missing gameId")].
Proof.
  refine (proj1 (join_without_game (E:=ply_engine) always_open draws_A 10 initial 1
                   (JObj [("type", JStr "join_game")]) _) _).
  - reflexivity.
  - reflexivity.
Defined.

(** A [make_move] before any game exists. *)
Lemma move_without_game_example :
  onMessage (E:=ply_engine) always_open draws_A 10 initial 1
    (Some (move_msg "AAAAAA" "e2" "e4"))
  = Done initial [(1, Error "Game not found")].
Proof.
  refine (move_without_game (E:=ply_engine) always_open draws_A 10 initial 1
            (move_msg "AAAAAA" "e2" "e4") _ _).
  - reflexivity.
  - vm_compute. reflexivity.
Defined.

(** White's opening move, seen from the registry. *)
Lemma position_changes_only_by_a_played_move_example :
  (exists ws msg random now c (m : lastmove (RulesEngine := ply_engine)),
     Message 1 (Some (move_msg "AAAAAA" "e2" "e4")) draws_A 12
     = Message ws (Some msg) random now
     /\ get_field msg "type" = Some (JStr "make_move")
     /\ get_field msg "gameId" = Some (JStr "AAAAAA")
     /\ chessRole paired !! ws = Some {| gameId := "AAAAAA"; role_color := c |}
     /\ c = turn (RulesEngine := ply_engine) 0
     /\ move (RulesEngine := ply_engine) 0 (request_of msg) = Moved 1 m)
  \/ (exists ws msg random now,
        Message 1 (Some (move_msg "AAAAAA" "e2" "e4")) draws_A 12
        = Message ws (Some msg) random now
        /\ get_field msg "type" = Some (JStr "create_game")
        /\ "AAAAAA" = generateGameId random
        /\ 1 = new_Chess (RulesEngine := ply_engine)).
Proof.
  apply (position_changes_only_by_a_played_move (E:=ply_engine) always_open paired
           (Message 1 (Some (move_msg "AAAAAA" "e2" "e4")) draws_A 12)
           (handleMove always_open paired 1 (move_msg "AAAAAA" "e2" "e4")).1
           (handleMove always_open paired 1 (move_msg "AAAAAA" "e2" "e4")).2
           "AAAAAA"
           {| game_chess := 0 : chess (RulesEngine := ply_engine);
              players := {| w := Some 1; b := Some 2 |};
              createdAt := 10 |}
           {| game_chess := 1 : chess (RulesEngine := ply_engine);
              players := {| w := Some 1; b := Some 2 |};
              createdAt := 10 |}).
  - reflexivity.
  - vm_compute. reflexivity.
  - vm_compute. reflexivity.
  - simpl. discriminate.
Defined.

(** White tries to move twice. *)
Lemma no_second_move_in_a_row_example :
  handleMove always_open
    (handleMove always_open paired 1 (move_msg "AAAAAA" "e2" "e4")).1 1
    (move_msg "AAAAAA" "d2" "d4")
  = ((handleMove always_open paired 1 (move_msg "AAAAAA" "e2" "e4")).1,
     [(1, Error "Not your turn")]).
Proof.
  refine (no_second_move_in_a_row (E:=ply_engine) always_open always_open paired 1
            (move_msg "AAAAAA" "e2" "e4") (move_msg "AAAAAA" "d2" "d4") "AAAAAA"
            {| game_chess := 0 : chess (RulesEngine := ply_engine);
               players := {| w := Some 1; b := Some 2 |};
               createdAt := 10 |} W 1 ("e2", "e4") _ _ _ _ _ _ _).
  - reflexivity.
  - reflexivity.
  - vm_compute. reflexivity.
  - vm_compute. reflexivity.
  - reflexivity.
  - reflexivity.
  - simpl. discriminate.
Defined.

(** Socket 1 keeps its binding when it closes. *)
Lemma bindings_are_never_dropped_example :
  is_Some (chessRole (cleanupConnection paired 1) !! 1).
Proof.
  apply (bindings_are_never_dropped (E:=ply_engine) always_open paired (Close 1)
           (cleanupConnection paired 1) [] 1).
  - reflexivity.
  - vm_compute. eexists. reflexivity.
Defined.

(** The joiner of [AAAAAA] has a binding. *)
Lemma seated_socket_is_bound_example :
  is_Some (chessRole paired !! 2).
Proof.
  apply (seated_socket_is_bound (E:=ply_engine) paired "AAAAAA"
           {| game_chess := 0 : chess (RulesEngine := ply_engine);
              players := {| w := Some 1; b := Some 2 |};
              createdAt := 10 |} B 2).
  - apply reachable_paired.
  - vm_compute. reflexivity.
  - reflexivity.
Defined.

(** The first game enters the empty registry. *)
Lemma sessions_come_from_create_game_example :
  exists ws msg random now,
    Message 1 (Some create_msg) draws_A 10 = Message ws (Some msg) random now
    /\ get_field msg "type" = Some (JStr "create_game")
    /\ "AAAAAA" = generateGameId random
    /\ games lobby !! "AAAAAA"
       = Some {| game_chess := new_Chess (RulesEngine := ply_engine);
                 players := {| w := Some ws; b := None |};
                 createdAt := now |}.
Proof.
  apply (sessions_come_from_create_game (E:=ply_engine) always_open initial
           (Message 1 (Some create_msg) draws_A 10) lobby
           (createGame always_open draws_A 10 initial 1).2 "AAAAAA").
  - reflexivity.
  - vm_compute. reflexivity.
  - vm_compute. eexists. reflexivity.
Defined.

(** The id of the first game. *)
Lemma stored_ids_are_well_formed_example :
  String.length "AAAAAA" = 6
  /\ Forall (fun a => a ∈ alphabet /\ a ∉ lookalikes)
       (String.list_ascii_of_string "AAAAAA").
Proof.
  apply (stored_ids_are_well_formed (E:=ply_engine) lobby "AAAAAA"
           {| game_chess := 0 : chess (RulesEngine := ply_engine);
              players := {| w := Some 1; b := None |};
              createdAt := 10 |}).
  - apply reachable_fair_lobby.
  - vm_compute. reflexivity.
Defined.

(** The creator stays in the white seat when socket 2 joins. *)
Lemma joinGame_keeps_occupants_example :
  exists g', games (joinGame always_open lobby 2 (Some (JStr "AAAAAA"))).1 !! "AAAAAA"
             = Some g'
             /\ slot W (players g') = Some 1
             /\ game_chess g' = (0 : chess (RulesEngine := ply_engine))
             /\ createdAt g' = 10%Z.
Proof.
  apply (joinGame_keeps_occupants (E:=ply_engine) always_open lobby 2
           (Some (JStr "AAAAAA")) "AAAAAA"
           {| game_chess := 0 : chess (RulesEngine := ply_engine);
              players := {| w := Some 1; b := None |};
              createdAt := 10 |} W 1).
  - vm_compute. reflexivity.
  - reflexivity.
Defined.

(** Socket 2 closes; socket 1 keeps its seat. *)
Lemma cleanup_keeps_other_sockets_example :
  exists g', games (cleanupConnection paired 2) !! "AAAAAA" = Some g'
             /\ slot W (players g') = Some 1
             /\ game_chess g' = (0 : chess (RulesEngine := ply_engine))
             /\ createdAt g' = 10%Z.
Proof.
  apply (cleanup_keeps_other_sockets (E:=ply_engine) paired 2 "AAAAAA"
           {| game_chess := 0 : chess (RulesEngine := ply_engine);
              players := {| w := Some 1; b := Some 2 |};
              createdAt := 10 |} W 1).
  - vm_compute. reflexivity.
  - reflexivity.
  - lia.
Defined.

(** A creator that leaves the empty server as it found it. *)
Lemma creator_leaves_alone_example :
  games (cleanupConnection (createGame always_open draws_A 10 initial 1).1 1)
  = games (initial (E:=ply_engine)).
Proof.
  refine (proj2 (creator_leaves_alone (E:=ply_engine) always_open draws_A 10
                   initial 1) _).
  vm_compute. reflexivity.
Defined.

(** Socket 2 joins [AAAAAA] and leaves again. *)
Lemma joiner_leaves_example :
  games (cleanupConnection (joinGame always_open lobby 2 (Some (JStr "AAAAAA"))).1 2)
  = games lobby.
Proof.
  apply (joiner_leaves (E:=ply_engine) always_open lobby 2 "AAAAAA"
           {| game_chess := 0 : chess (RulesEngine := ply_engine);
              players := {| w := Some 1; b := None |};
              createdAt := 10 |}).
  - vm_compute. reflexivity.
  - reflexivity.
  - left. reflexivity.
Defined.
